(** * aioboto3 [dynamodb/table.py]: the asynchronous [BatchWriter]

    A shallow embedding of [BatchWriter] (the buffer of DynamoDB write
    requests, its de-duplication by primary keys, the flush to
    [batch_write_item] and the drain of [__aexit__]) and the proofs of its
    specification.

    The coroutines are run by one flow of control: every [await] is a call
    that returns before the next statement runs.  Python exceptions are
    outcomes; the object is mutated in place, so what a method did before
    it raised stays done. *)

From stdpp Require Import base option list gmap strings.
From Stdlib Require Import ZArith Lia.

Open Scope string_scope.
Open Scope list_scope.
Open Scope Z_scope.

(** ** Data *)

(** Attribute values as far as [==] looks at them. *)
Inductive value : Type :=
| VNum (n : Z)
| VStr (s : string).

#[global] Instance value_eq_dec : EqDecision value.
Proof. solve_decision. Defined.

(** A Python [dict] from attribute names to values; the equality of [gmap]
    is that of [dict.__eq__] (same keys, same values, no order). *)
Abbreviation row := (gmap string value).

(** [{'PutRequest': {'Item': Item}}] and [{'DeleteRequest': {'Key': Key}}]. *)
Inductive request : Type :=
| PutRequest (Item : row)
| DeleteRequest (Key : row).

#[global] Instance request_eq_dec : EqDecision request.
Proof. solve_decision. Defined.

(** The value found under ['UnprocessedItems']: [None] or a [dict] from
    table names to lists of requests. *)
Inductive py_unprocessed : Type :=
| PyNone
| PyDict (m : gmap string (list request)).

(** The [dict] that [batch_write_item] returns; [_flush] reads one key. *)
Abbreviation response := (gmap string py_unprocessed).

Inductive exn : Type :=
| KeyError (key : string)
| ClientError (msg : string).

Inductive outcome (A : Type) : Type :=
| Return (a : A)
| Raise (e : exn).
Arguments Return {A} a.
Arguments Raise {A} e.

(** The botocore client, seen from the writer: the answer to the [n]-th
    call of [batch_write_item(RequestItems={table: items})]. *)
Definition client : Type := nat → string → list request → outcome response.

(** The fields of [BatchWriter.__init__]. *)
Record BatchWriter : Type := mkBatchWriter {
  _table_name : string;
  _client : client;
  _items_buffer : list request;
  _flush_amount : Z;
  _overwrite_by_pkeys : option (list string);
  _on_exit_loop_sleep : Z
}.

(** The writer together with what it did to the outside: the
    [RequestItems] of every [batch_write_item], oldest first, and the
    arguments of every [asyncio.sleep]. *)
Record world : Type := mkWorld {
  self : BatchWriter;
  sent : list (string * list request);
  slept : list Z
}.

Definition set_buffer (b : list request) (s : BatchWriter) : BatchWriter :=
  mkBatchWriter (_table_name s) (_client s) b (_flush_amount s)
    (_overwrite_by_pkeys s) (_on_exit_loop_sleep s).

Definition set_pkeys (p : option (list string)) (s : BatchWriter) : BatchWriter :=
  mkBatchWriter (_table_name s) (_client s) (_items_buffer s) (_flush_amount s)
    p (_on_exit_loop_sleep s).

Definition with_buffer (b : list request) (w : world) : world :=
  mkWorld (set_buffer b (self w)) (sent w) (slept w).

Definition with_pkeys (p : option (list string)) (w : world) : world :=
  mkWorld (set_pkeys p (self w)) (sent w) (slept w).

Definition buffer (w : world) : list request := _items_buffer (self w).

(** [BatchWriter(table_name, client, flush_amount, overwrite_by_pkeys,
    on_exit_loop_sleep)], nothing sent yet. *)
Definition __init__ (table_name : string) (c : client) (flush_amount : Z)
    (overwrite_by_pkeys : option (list string)) (on_exit_loop_sleep : Z) : world :=
  mkWorld (mkBatchWriter table_name c [] flush_amount overwrite_by_pkeys
             on_exit_loop_sleep) [] [].

(** ** Python lists *)

(** [l[:n]] and [l[n:]]: a negative [n] counts from the end, and both
    clamp at the ends of the list. *)
Definition slice_index {A} (n : Z) (l : list A) : nat :=
  if decide (0 ≤ n) then Z.to_nat n
  else Z.to_nat (Z.max 0 (Z.of_nat (length l) + n)).

Definition slice_to {A} (n : Z) (l : list A) : list A := take (slice_index n l) l.
Definition slice_from {A} (n : Z) (l : list A) : list A := drop (slice_index n l) l.

(** [l.remove(x)]: drop the first element equal to [x].  ([ValueError]
    when there is none; the writer only removes what it has just read.) *)
Fixpoint list_remove `{EqDecision A} (x : A) (l : list A) : list A :=
  match l with
  | [] => []
  | y :: l' => if decide (y = x) then l' else y :: list_remove x l'
  end.

(** The truth value of [overwrite_by_pkeys]: [None] and [[]] are false. *)
Definition truthy (p : option (list string)) : bool :=
  match p with
  | Some (_ :: _) => true
  | _ => false
  end.

(** ** The methods *)

(** [[d[key] for key in pkeys]]: the first missing key raises. *)
Fixpoint subscripts (d : row) (pkeys : list string) : outcome (list value) :=
  match pkeys with
  | [] => Return []
  | key :: rest =>
      match d !! key with
      | None => Raise (KeyError key)
      | Some v =>
          match subscripts d rest with
          | Return vs => Return (v :: vs)
          | Raise e => Raise e
          end
      end
  end.

(** [_extract_pkey_values].  [request.get('PutRequest')] is the dict
    [{'Item': Item}], which is never empty, so a request takes one of the
    two branches and the final [return None] is not reached. *)
Definition _extract_pkey_values (pkeys : list string) (r : request)
    : outcome (list value) :=
  match r with
  | PutRequest Item => subscripts Item pkeys
  | DeleteRequest Key => subscripts Key pkeys
  end.

(** The [for item in self._items_buffer] of
    [_remove_dup_pkeys_request_if_any].  The iterator holds an index [i]
    into the list that the body shrinks: it stops when [i] is past the end
    and moves to [i + 1] whatever the body removed.  [n] bounds the number
    of turns left; [length buf - i] is enough ([scan_fuel]).  An extraction
    that raises leaves the buffer as the loop made it so far. *)
Fixpoint scan (pkeys : list string) (pkey_values_new : list value)
    (n i : nat) (buf : list request) : outcome unit * list request :=
  match n with
  | O => (Return (), buf)
  | S n' =>
      match buf !! i with
      | None => (Return (), buf)
      | Some item =>
          match _extract_pkey_values pkeys item with
          | Raise e => (Raise e, buf)
          | Return vs =>
              if decide (vs = pkey_values_new)
              then scan pkeys pkey_values_new n' (S i) (list_remove item buf)
              else scan pkeys pkey_values_new n' (S i) buf
          end
      end
  end.

Definition _remove_dup_pkeys_request_if_any (r : request) (w : world)
    : outcome unit * world :=
  let pkeys := default [] (_overwrite_by_pkeys (self w)) in
  match _extract_pkey_values pkeys r with
  | Raise e => (Raise e, w)
  | Return pkey_values_new =>
      let '(o, buf) := scan pkeys pkey_values_new (length (buffer w)) 0 (buffer w) in
      (o, with_buffer buf w)
  end.

(** [unprocessed_items.get(self._table_name, [])] after
    [if not unprocessed_items: unprocessed_items = {}]. *)
Definition item_list (table : string) (u : py_unprocessed) : list request :=
  match u with
  | PyNone => []
  | PyDict m => default [] (m !! table)
  end.

Definition _flush (w : world) : outcome unit * world :=
  let s := self w in
  let items_to_send := slice_to (_flush_amount s) (_items_buffer s) in
  let s1 := set_buffer (slice_from (_flush_amount s) (_items_buffer s)) s in
  let w1 := mkWorld s1 (sent w ++ [(_table_name s, items_to_send)]) (slept w) in
  match _client s (length (sent w)) (_table_name s) items_to_send with
  | Raise e => (Raise e, w1)
  | Return resp =>
      match resp !! "UnprocessedItems" with
      | None => (Raise (KeyError "UnprocessedItems"), w1)
      | Some unprocessed_items =>
          (Return (),
           with_buffer (_items_buffer s1 ++ item_list (_table_name s) unprocessed_items) w1)
      end
  end.

Definition _flush_if_needed (w : world) : outcome unit * world :=
  if decide (_flush_amount (self w) ≤ Z.of_nat (length (buffer w)))
  then _flush w
  else (Return (), w).

Definition _add_request_and_process (r : request) (w : world)
    : outcome unit * world :=
  let '(o, w1) :=
    if truthy (_overwrite_by_pkeys (self w))
    then _remove_dup_pkeys_request_if_any r w
    else (Return (), w) in
  match o with
  | Raise e => (Raise e, w1)
  | Return _ => _flush_if_needed (with_buffer (buffer w1 ++ [r]) w1)
  end.

Definition put_item (Item : row) : world → outcome unit * world :=
  _add_request_and_process (PutRequest Item).

Definition delete_item (Key : row) : world → outcome unit * world :=
  _add_request_and_process (DeleteRequest Key).

Definition sleep (d : Z) (w : world) : world :=
  mkWorld (self w) (sent w) (slept w ++ [d]).

(** [__aexit__(exc_type, exc_value, tb)]: the [while self._items_buffer]
    loop.  The three arguments, here the exception the scope was left
    with if any, are not read.  The loop need not end, so it runs on
    fuel: [None] is a loop still running when the fuel is spent. *)
Fixpoint __aexit__ (exc : option exn) (fuel : nat) (w : world)
    : option (outcome unit * world) :=
  match buffer w with
  | [] => Some (Return (), w)
  | _ :: _ =>
      match fuel with
      | O => None
      | S fuel' =>
          match _flush w with
          | (Raise e, w1) => Some (Raise e, w1)
          | (Return _, w1) =>
              let w2 :=
                if bool_decide (buffer w1 ≠ []) && bool_decide (_on_exit_loop_sleep (self w1) ≠ 0)
                then sleep (_on_exit_loop_sleep (self w1)) w1
                else w1 in
              __aexit__ exc fuel' w2
          end
      end
  end.

(** The calls of an application, in order, as one straight-line program:
    the first exception ends it. *)
Inductive call : Type :=
| put_call (Item : row)
| delete_call (Key : row).

Definition request_of (c : call) : request :=
  match c with
  | put_call Item => PutRequest Item
  | delete_call Key => DeleteRequest Key
  end.

Definition do_call (c : call) : world → outcome unit * world :=
  match c with
  | put_call Item => put_item Item
  | delete_call Key => delete_item Key
  end.

Fixpoint do_calls (cs : list call) (w : world) : outcome unit * world :=
  match cs with
  | [] => (Return (), w)
  | c :: cs' =>
      match do_call c w with
      | (Raise e, w1) => (Raise e, w1)
      | (Return _, w1) => do_calls cs' w1
      end
  end.

(** The worlds an application can observe between two calls, starting
    from [w0]: after a [put_item], a [delete_item] or an [__aexit__] that
    returned or raised (the application may catch the exception and go
    on). *)
Inductive reachable (w0 : world) : world → Prop :=
| reach_init : reachable w0 w0
| reach_put w Item o w' :
    reachable w0 w → put_item Item w = (o, w') → reachable w0 w'
| reach_delete w Key o w' :
    reachable w0 w → delete_item Key w = (o, w') → reachable w0 w'
| reach_exit w exc fuel o w' :
    reachable w0 w → __aexit__ exc fuel w = Some (o, w') → reachable w0 w'.

(** ** Vocabulary of the specification *)

(** The buffer holds no two requests with the same extracted tuple. *)
Definition no_equal_tuples (pkeys : list string) (buf : list request) : Prop :=
  ∀ i j x y vs,
    buf !! i = Some x → buf !! j = Some y →
    _extract_pkey_values pkeys x = Return vs →
    _extract_pkey_values pkeys y = Return vs →
    i = j.

(** The contract of the back end (the glossary's unprocessed items): what
    comes back under the table's name was in the batch, no more often than
    it was sent. *)
Definition returns_sent_items (c : client) : Prop :=
  ∀ n table batch resp u,
    c n table batch = Return resp →
    resp !! "UnprocessedItems" = Some u →
    item_list table u ⊆+ batch.

(** A back end that raises nothing and hands nothing back. *)
Definition accepts_all (c : client) : Prop :=
  ∀ n table batch, ∃ resp u,
    c n table batch = Return resp ∧
    resp !! "UnprocessedItems" = Some u ∧
    item_list table u = [].

#[global] Instance exn_eq_dec : EqDecision exn.
Proof. solve_decision. Defined.

#[global] Instance outcome_eq_dec `{EqDecision A} : EqDecision (outcome A).
Proof. solve_decision. Defined.

(** Dedup collisions of a sequence of requests: the requests whose tuple
    is that of a request earlier in the sequence.  [seen] holds the
    tuples met so far. *)
Fixpoint collisions_from (pkeys : list string)
    (seen : list (outcome (list value))) (rs : list request) : nat :=
  match rs with
  | [] => O
  | r :: rs' =>
      let k := _extract_pkey_values pkeys r in
      ((if decide (k ∈ seen) then 1 else 0)
       + collisions_from pkeys (k :: seen) rs')%nat
  end.

Definition collisions (p : option (list string)) (rs : list request) : nat :=
  if truthy p then collisions_from (default [] p) [] rs else O.

(** [buf'] is [buf] without some of its entries that satisfy [P]. *)
Inductive removes {A} (P : A → Prop) : list A → list A → Prop :=
| removes_nil : removes P [] []
| removes_keep x l l' : removes P l l' → removes P (x :: l) (x :: l')
| removes_drop x l l' : P x → removes P l l' → removes P (x :: l) l'.

(** The entry has the tuple [vs] of the incoming request. *)
Definition matches (pkeys : list string) (vs : list value) (x : request) : Prop :=
  _extract_pkey_values pkeys x = Return vs.

#[global] Instance matches_dec pkeys vs x : Decision (matches pkeys vs x).
Proof. unfold matches. apply _. Defined.

(** The extraction of the entry's tuple raises nothing. *)
Definition extracts (pkeys : list string) (x : request) : Prop :=
  ∃ vs', _extract_pkey_values pkeys x = Return vs'.

(** Every entry has a tuple, and no two have the same. *)
Definition tidy (pkeys : list string) (buf : list request) : Prop :=
  Forall (extracts pkeys) buf ∧ NoDup (_extract_pkey_values pkeys <$> buf).

(** What [_flush] does not touch. *)
Definition same_config (w w' : world) : Prop :=
  _table_name (self w') = _table_name (self w) ∧
  _client (self w') = _client (self w) ∧
  _flush_amount (self w') = _flush_amount (self w) ∧
  _overwrite_by_pkeys (self w') = _overwrite_by_pkeys (self w) ∧
  _on_exit_loop_sleep (self w') = _on_exit_loop_sleep (self w).


(** The request collides with nothing in the buffer: there is no
    de-duplication, or no buffered entry has its tuple. *)
Definition collides_with_nothing (r : request) (w : world) : Prop :=
  truthy (_overwrite_by_pkeys (self w)) = false ∨
  ∃ pkeys vs,
    _overwrite_by_pkeys (self w) = Some pkeys ∧ pkeys ≠ [] ∧
    tidy pkeys (buffer w) ∧
    _extract_pkey_values pkeys r = Return vs ∧
    Forall (λ y, ¬ matches pkeys vs y) (buffer w).

(** The dict a request carries: the row of a put, the key of a delete. *)
Definition attributes (r : request) : row :=
  match r with
  | PutRequest Item => Item
  | DeleteRequest Key => Key
  end.

(** What the loop of [_remove_dup_pkeys_request_if_any] leaves of a buffer
    of distinct entries, read off its index arithmetic: an entry with the
    tuple goes, and the entry that slides into its place is passed over. *)
Fixpoint passing_over (pkeys : list string) (vs : list value)
    (buf : list request) : list request :=
  match buf with
  | [] => []
  | x :: l =>
      if decide (matches pkeys vs x)
      then match l with
           | [] => []
           | y :: l' => y :: passing_over pkeys vs l'
           end
      else x :: passing_over pkeys vs l
  end.

(** A back end that, when it returns, hands nothing back. *)
Definition hands_nothing_back (c : client) : Prop :=
  ∀ n table batch resp u,
    c n table batch = Return resp →
    resp !! "UnprocessedItems" = Some u →
    item_list table u = [].

(** A back end that hands every batch back whole (throttled for good). *)
Definition hands_all_back (c : client) : Prop :=
  ∀ n table batch, ∃ resp u,
    c n table batch = Return resp ∧
    resp !! "UnprocessedItems" = Some u ∧
    item_list table u = batch.

(** A batch as [batch_write_item] wants it: for the table, not empty, of
    at most [fa] requests. *)
Definition well_sized (table : string) (fa : Z) (b : string * list request) : Prop :=
  b.1 = table ∧ b.2 ≠ [] ∧ Z.of_nat (length b.2) ≤ fa.


(** ** Back ends and rows of the examples *)

Definition echo_client : client :=
  λ _ table batch, Return {["UnprocessedItems" := PyDict {[table := batch]}]}.

Definition quiet_client : client :=
  λ _ _ _, Return {["UnprocessedItems" := PyDict ∅]}.

(** A back end outside the contract: it returns every request twice. *)
Definition doubling_client : client :=
  λ _ table batch, Return {["UnprocessedItems" := PyDict {[table := batch ++ batch]}]}.

(** A back end that is throttled once: it hands its first batch back
    whole and accepts the later ones. *)
Definition throttled_once_client : client :=
  λ n table batch,
    Return {["UnprocessedItems" := PyDict {[table := if n is O then batch else []]}]}.

Definition failing_client : client :=
  λ _ _ _, Raise (ClientError "ProvisionedThroughputExceededException").

Definition kv (k : Z) (v : string) : row := {["K" := VNum k; "V" := VStr v]}.

(** ** Slices and [remove] *)

Lemma slice_to_from {A} (n : Z) (l : list A) : slice_to n l ++ slice_from n l = l.
Proof. apply take_drop. Qed.

Lemma slice_index_pos {A} (n : Z) (l : list A) :
  0 < n → slice_index n l = Z.to_nat n.
Proof. intros Hn. unfold slice_index. case_decide; [done | lia]. Qed.

Lemma slice_from_shorter {A} (n : Z) (l : list A) :
  0 < n → l ≠ [] → (length (slice_from n l) < length l)%nat.
Proof.
  intros Hn Hl. unfold slice_from. rewrite slice_index_pos, length_drop by done.
  destruct l; [done | simpl; lia].
Qed.

Lemma list_remove_split `{EqDecision A} (x : A) (pre post : list A) :
  x ∉ pre → list_remove x (pre ++ x :: post) = pre ++ post.
Proof.
  induction pre as [|y pre IH]; intros Hx; simpl.
  - by rewrite decide_True.
  - apply not_elem_of_cons in Hx as [Hxy Hx].
    rewrite decide_False by done. by rewrite IH.
Qed.

Lemma removes_refl {A} (P : A → Prop) l : removes P l l.
Proof. induction l; by constructor. Qed.

Lemma removes_trans {A} (P : A → Prop) l1 l2 l3 :
  removes P l1 l2 → removes P l2 l3 → removes P l1 l3.
Proof.
  intros H. revert l3. induction H; intros l3 H23.
  - done.
  - inversion H23; subst; [apply removes_keep | apply removes_drop]; auto.
  - apply removes_drop; auto.
Qed.

Lemma removes_list_remove `{EqDecision A} (P : A → Prop) (x : A) l :
  P x → removes P l (list_remove x l).
Proof.
  intros Hx. induction l as [|y l IH]; simpl; [constructor |].
  case_decide; subst.
  - apply removes_drop; [done | apply removes_refl].
  - by apply removes_keep.
Qed.

Lemma removes_sublist {A} (P : A → Prop) l l' : removes P l l' → sublist l' l.
Proof. induction 1; by constructor. Qed.

Lemma removes_none {A} (P : A → Prop) l l' :
  Forall (λ x, ¬ P x) l → removes P l l' → l' = l.
Proof.
  intros Hl H. induction H as [| x l l' H IH | x l l' HP H IH]; [done | |].
  - apply Forall_cons in Hl as [_ Hl]. f_equal. by apply IH.
  - apply Forall_cons in Hl as [Hx _]. contradiction.
Qed.

Lemma removes_prefix {A} (P : A → Prop) pre l r :
  Forall (λ x, ¬ P x) pre → removes P (pre ++ l) r →
  ∃ l', r = pre ++ l' ∧ removes P l l'.
Proof.
  induction pre as [|y pre IH] in r |- *; intros Hpre H; simpl in *.
  - by exists r.
  - apply Forall_cons in Hpre as [Hy Hpre].
    inversion H as [| ? ? r' Hr | ? ? ? HP Hr]; subst; [| contradiction].
    destruct (IH _ Hpre Hr) as (l' & -> & Hl'). by exists l'.
Qed.

Lemma Forall_sub {A} (P : A → Prop) l l' : sublist l' l → Forall P l → Forall P l'.
Proof.
  intros Hsub Hl. rewrite Forall_forall in *. intros x Hx. apply Hl.
  eapply elem_of_submseteq; [done | by apply sublist_submseteq].
Qed.

Lemma filter_all {A} (P : A → Prop) `{∀ x, Decision (P x)} l :
  Forall P l → filter P l = l.
Proof. induction 1 as [|y l Hy Hl IH]; [done |]. by rewrite filter_cons_True, IH. Qed.

(** ** The scan of [_remove_dup_pkeys_request_if_any] *)

Section scan.
Variable pkeys : list string.
Variable vs : list value.

Lemma list_remove_length (x : request) buf :
  (length (list_remove x buf) ≤ length buf)%nat.
Proof. induction buf; simpl; [lia | case_decide; simpl; lia]. Qed.

Lemma list_remove_sublist (x : request) buf : sublist (list_remove x buf) buf.
Proof.
  induction buf as [|y buf IH]; simpl; [constructor |].
  case_decide; [by apply sublist_cons | by apply sublist_skip].
Qed.

(** The bound [n] of [scan] is not felt once it covers the entries from
    [i] on: the loop ends by running off the end of the list. *)
Lemma scan_fuel n k i buf :
  (length buf ≤ n + i)%nat →
  scan pkeys vs (n + k) i buf = scan pkeys vs n i buf.
Proof.
  revert i buf. induction n as [|n IH]; intros i buf Hlen; simpl.
  - assert (buf !! i = None) as Hi by (apply lookup_ge_None; lia).
    destruct k; simpl; [done | by rewrite Hi].
  - destruct (buf !! i) as [item|]; [| done].
    destruct (_extract_pkey_values pkeys item); [| done].
    case_decide.
    + apply IH. pose proof (list_remove_length item buf). lia.
    + apply IH. lia.
Qed.

(** Whatever the scan removes has the tuple of the incoming request. *)
Lemma scan_removes n i buf :
  removes (matches pkeys vs) buf (scan pkeys vs n i buf).2.
Proof.
  revert i buf. induction n as [|n IH]; intros i buf; simpl.
  - apply removes_refl.
  - destruct (buf !! i) as [item|]; [| apply removes_refl].
    destruct (_extract_pkey_values pkeys item) as [vs'|e] eqn:Hx; [| apply removes_refl].
    case_decide as Hvs; [| apply IH]. subst vs'.
    eapply removes_trans; [| apply IH].
    by apply removes_list_remove.
Qed.

Lemma scan_returns n i buf :
  Forall (extracts pkeys) buf → (scan pkeys vs n i buf).1 = Return ().
Proof.
  revert i buf. induction n as [|n IH]; intros i buf Hbuf; simpl; [done |].
  destruct (buf !! i) as [item|] eqn:Hi; [| done].
  destruct (_extract_pkey_values pkeys item) as [vs'|e] eqn:Hx.
  - case_decide; apply IH; [| done].
    eapply Forall_sub; [| done]. apply list_remove_sublist.
  - apply list_elem_of_lookup_2 in Hi.
    rewrite Forall_forall in Hbuf. destruct (Hbuf _ Hi) as [? ?]. congruence.
Qed.

(** The first entry with the tuple is met by the scan, and removed. *)
Lemma scan_first_match n i pre x post :
  Forall (extracts pkeys) pre → Forall (λ y, ¬ matches pkeys vs y) pre →
  matches pkeys vs x →
  (i ≤ length pre)%nat → (length (pre ++ x :: post) ≤ n + i)%nat →
  ∃ n', scan pkeys vs n i (pre ++ x :: post)
        = scan pkeys vs n' (S (length pre)) (pre ++ post).
Proof.
  intros Hex Hpre Hx. revert i.
  induction n as [|n IH]; intros i Hi Hlen.
  - rewrite length_app in Hlen. simpl in Hlen. lia.
  - simpl. destruct (decide (i = length pre)) as [->|Hne].
    + rewrite list_lookup_middle by done. rewrite Hx, decide_True by done.
      exists n. rewrite list_remove_split; [done |].
      intros Hin. rewrite Forall_forall in Hpre. by apply (Hpre x).
    + assert (i < length pre)%nat as Hlt by lia.
      destruct (lookup_lt_is_Some_2 pre i Hlt) as [y Hy].
      rewrite lookup_app_l, Hy by done.
      apply list_elem_of_lookup_2 in Hy.
      rewrite Forall_forall in Hex, Hpre.
      destruct (Hex y Hy) as [vs' Hvs']. rewrite Hvs'.
      rewrite decide_False.
      * apply IH; lia.
      * intros ->. by apply (Hpre y).
Qed.

(** With nothing left to match, the scan changes nothing. *)
Lemma scan_no_match n i buf :
  Forall (extracts pkeys) buf → Forall (λ y, ¬ matches pkeys vs y) (drop i buf) →
  scan pkeys vs n i buf = (Return (), buf).
Proof.
  intros Hex. revert i. induction n as [|n IH]; intros i Hno; simpl; [done |].
  destruct (buf !! i) as [item|] eqn:Hi; [| done].
  rewrite (drop_S _ _ _ Hi) in Hno. apply Forall_cons in Hno as [Hitem Hno].
  apply list_elem_of_lookup_2 in Hi. rewrite Forall_forall in Hex.
  destruct (Hex _ Hi) as [vs' Hvs']. rewrite Hvs'.
  rewrite decide_False; [by apply IH |].
  intros ->. by apply Hitem.
Qed.

Lemma tidy_submseteq buf buf' : buf' ⊆+ buf → tidy pkeys buf → tidy pkeys buf'.
Proof.
  intros Hsub [Hex Hnd]. split.
  - rewrite Forall_forall in *. intros x Hx. apply Hex.
    by eapply elem_of_submseteq.
  - assert (_extract_pkey_values pkeys <$> buf' ⊆+ _extract_pkey_values pkeys <$> buf)
      as Hf by (by apply fmap_submseteq).
    apply submseteq_Permutation in Hf as [k Hk].
    rewrite Hk in Hnd. by apply NoDup_app in Hnd as [? _].
Qed.

(** In a tidy buffer an entry with the tuple is the only one. *)
Lemma tidy_split buf x :
  tidy pkeys buf → x ∈ buf → matches pkeys vs x →
  ∃ pre post, buf = pre ++ x :: post ∧
              Forall (λ y, ¬ matches pkeys vs y) pre ∧
              Forall (λ y, ¬ matches pkeys vs y) post.
Proof.
  intros [_ Hnd] Hin Hm.
  apply list_elem_of_split in Hin as (pre & post & ->).
  exists pre, post. split; [done |].
  rewrite fmap_app, fmap_cons in Hnd.
  apply NoDup_app in Hnd as (_ & Hdisj & Hnd2).
  apply NoDup_cons in Hnd2 as [Hxpost _].
  rewrite Hm in Hdisj, Hxpost.
  split; apply Forall_forall; intros y Hy Hmy.
  - apply (Hdisj (Return vs)); [| left].
    rewrite <- Hmy. by apply list_elem_of_fmap_2.
  - apply Hxpost. rewrite <- Hmy. by apply list_elem_of_fmap_2.
Qed.

(** In a tidy buffer the scan removes exactly the entries with the
    tuple (there is at most one). *)
Lemma scan_tidy n buf :
  tidy pkeys buf → (length buf ≤ n)%nat →
  scan pkeys vs n 0 buf = (Return (), filter (λ y, ¬ matches pkeys vs y) buf).
Proof.
  intros Htidy Hlen.
  destruct (decide (Forall (λ y, ¬ matches pkeys vs y) buf)) as [Hno|Hsome].
  - rewrite scan_no_match; [| by destruct Htidy | by rewrite drop_0].
    by rewrite filter_all.
  - apply not_Forall_Exists in Hsome; [| apply _].
    apply Exists_exists in Hsome as (x & Hin & Hx).
    assert (matches pkeys vs x) as Hm by (by destruct (decide (matches pkeys vs x))).
    destruct (tidy_split buf x Htidy Hin Hm) as (pre & post & -> & Hpre & Hpost).
    destruct Htidy as [Hex _].
    apply Forall_app in Hex as [Hex1 Hex2].
    apply Forall_cons in Hex2 as [_ Hex2].
    destruct (scan_first_match n 0 pre x post) as [n' ->]; [done.. | lia | lia |].
    rewrite scan_no_match.
    + rewrite filter_app, filter_cons_False by (by intros []).
      by rewrite !filter_all.
    + by apply Forall_app.
    + (* the entry after the removed one is skipped, and need not be looked at *)
      rewrite drop_app, drop_ge by lia. simpl.
      eapply Forall_sub; [apply sublist_drop | done].
Qed.

(** What the filter of a tidy buffer keeps. *)
Lemma filter_tidy buf :
  tidy pkeys buf →
  let kept := filter (λ y, ¬ matches pkeys vs y) buf in
  (Return vs ∈ _extract_pkey_values pkeys <$> buf → S (length kept) = length buf) ∧
  (Return vs ∉ _extract_pkey_values pkeys <$> buf → kept = buf) ∧
  (∀ k, k ∈ _extract_pkey_values pkeys <$> kept
        ↔ k ∈ _extract_pkey_values pkeys <$> buf ∧ k ≠ Return vs).
Proof.
  intros Htidy kept. split; [| split].
  - intros Hin. apply list_elem_of_fmap in Hin as (x & Hx & Hin).
    symmetry in Hx.
    destruct (tidy_split buf x Htidy Hin Hx) as (pre & post & -> & Hpre & Hpost).
    unfold kept. rewrite filter_app, filter_cons_False by (by intros []).
    rewrite !filter_all by done. rewrite !length_app. simpl. lia.
  - intros Hnot. apply filter_all. apply Forall_forall. intros y Hy Hm.
    apply Hnot. rewrite <- Hm. by apply list_elem_of_fmap_2.
  - intros k. unfold kept. split.
    + intros Hk. apply list_elem_of_fmap in Hk as (x & -> & Hx).
      apply list_elem_of_filter in Hx as [Hm Hx].
      split; [by apply list_elem_of_fmap_2 | done].
    + intros [Hk Hne]. apply list_elem_of_fmap in Hk as (x & -> & Hx).
      apply list_elem_of_fmap_2, list_elem_of_filter. by split.
Qed.

Lemma tidy_snoc buf r :
  tidy pkeys buf → matches pkeys vs r →
  tidy pkeys (filter (λ y, ¬ matches pkeys vs y) buf ++ [r]).
Proof.
  intros Htidy Hr.
  assert (tidy pkeys (filter (λ y, ¬ matches pkeys vs y) buf)) as [Hex Hnd].
  { eapply tidy_submseteq; [| done]. apply sublist_submseteq, sublist_filter. }
  split.
  - apply Forall_app. split; [done |]. apply Forall_singleton. by exists vs.
  - rewrite fmap_app. apply NoDup_app. split; [done |]. split.
    + intros k Hk Hk'. apply list_elem_of_singleton in Hk'. subst k.
      apply (filter_tidy buf Htidy) in Hk as [_ Hne]. by rewrite Hr in Hne.
    + apply NoDup_singleton.
Qed.
End scan.

Lemma buffer_with_buffer b w : buffer (with_buffer b w) = b.
Proof. done. Qed.

(** ** [_flush] *)

Lemma same_config_refl w : same_config w w.
Proof. by repeat split. Qed.

Lemma same_config_trans w1 w2 w3 :
  same_config w1 w2 → same_config w2 w3 → same_config w1 w3.
Proof.
  intros (?&?&?&?&?) (?&?&?&?&?). repeat split; congruence.
Qed.

Lemma flush_config w : same_config w (_flush w).2.
Proof.
  unfold _flush.
  destruct (_client _ _ _ _) as [resp|e]; [| by repeat split].
  destruct (resp !! "UnprocessedItems"); by repeat split.
Qed.

(** The three ways out of [_flush]. *)
Lemma flush_cases w :
  let s := self w in
  let batch := slice_to (_flush_amount s) (buffer w) in
  let rest := slice_from (_flush_amount s) (buffer w) in
  sent (_flush w).2 = sent w ++ [(_table_name s, batch)] ∧
  slept (_flush w).2 = slept w ∧
  match _client s (length (sent w)) (_table_name s) batch with
  | Raise e => (_flush w).1 = Raise e ∧ buffer (_flush w).2 = rest
  | Return resp =>
      match resp !! "UnprocessedItems" with
      | None =>
          (_flush w).1 = Raise (KeyError "UnprocessedItems") ∧
          buffer (_flush w).2 = rest
      | Some u =>
          (_flush w).1 = Return () ∧
          buffer (_flush w).2 = rest ++ item_list (_table_name s) u
      end
  end.
Proof.
  unfold _flush, buffer. simpl.
  destruct (_client _ _ _ _) as [resp|e]; [| done].
  by destruct (resp !! "UnprocessedItems").
Qed.

(** With a back end that returns what it was sent, a flush leaves in the
    buffer only what was there. *)
Lemma flush_submseteq w :
  returns_sent_items (_client (self w)) → buffer (_flush w).2 ⊆+ buffer w.
Proof.
  intros Hc. pose proof (flush_cases w) as (_ & _ & H). simpl in H.
  pose proof (slice_to_from (_flush_amount (self w)) (buffer w)) as Hsplit.
  destruct (_client _ _ _ _) as [resp|e] eqn:Hcall.
  - destruct (resp !! "UnprocessedItems") as [u|] eqn:Hu.
    + destruct H as [_ ->].
      trans (slice_from (_flush_amount (self w)) (buffer w)
             ++ slice_to (_flush_amount (self w)) (buffer w)).
      * apply submseteq_skips_l. by eapply Hc.
      * apply Permutation_submseteq. rewrite <- Hsplit at 3.
        apply Permutation_app_comm.
    + destruct H as [_ ->]. apply submseteq_drop.
  - destruct H as [_ ->]. apply submseteq_drop.
Qed.

(** C2.  A flush with a positive [flush_amount] sends the first
    [min flush_amount (len buffer)] requests of the buffer, in the order of
    the buffer, in one [batch_write_item]; it has taken them off the front
    of the buffer before the call (when the call raises, or the response
    has no entry to read, the buffer is the remainder); the requests that
    come back unprocessed are appended after the remainder, which keeps
    its order. *)
Theorem flush_sends_front_requeues_at_end (w : world) :
  0 < _flush_amount (self w) →
  let s := self w in
  let n := Nat.min (Z.to_nat (_flush_amount s)) (length (buffer w)) in
  let batch := take n (buffer w) in
  let rest := drop n (buffer w) in
  buffer w = batch ++ rest ∧
  sent (_flush w).2 = sent w ++ [(_table_name s, batch)] ∧
  match _client s (length (sent w)) (_table_name s) batch with
  | Raise e => _flush w = (Raise e, (_flush w).2) ∧ buffer (_flush w).2 = rest
  | Return resp =>
      match resp !! "UnprocessedItems" with
      | None => (_flush w).1 = Raise (KeyError "UnprocessedItems") ∧
                buffer (_flush w).2 = rest
      | Some u => (_flush w).1 = Return () ∧
                  buffer (_flush w).2 = rest ++ item_list (_table_name s) u
      end
  end.
Proof.
  intros Hpos s n batch rest.
  assert (batch = slice_to (_flush_amount s) (buffer w)) as Hb.
  { unfold batch, n, slice_to. rewrite slice_index_pos by done.
    destruct (decide (Z.to_nat (_flush_amount s) ≤ length (buffer w))%nat).
    - by rewrite Nat.min_l.
    - rewrite Nat.min_r by lia. by rewrite !take_ge by lia. }
  assert (rest = slice_from (_flush_amount s) (buffer w)) as Hr.
  { unfold rest, n, slice_from. rewrite slice_index_pos by done.
    destruct (decide (Z.to_nat (_flush_amount s) ≤ length (buffer w))%nat).
    - by rewrite Nat.min_l.
    - rewrite Nat.min_r by lia. by rewrite !drop_ge by lia. }
  split; [by rewrite Hb, Hr, slice_to_from |].
  pose proof (flush_cases w) as (Hsent & _ & H). simpl in H.
  fold s in Hsent, H. rewrite <- Hb in Hsent, H. rewrite <- Hr in H.
  split; [done |].
  destruct (_client _ _ _ _) as [resp|e]; [done |].
  destruct H as [H1 H2]. split; [| done].
  rewrite <- H1. by destruct (_flush w).
Qed.

Lemma flush_sends_front_requeues_at_end_witness :
  let w := with_buffer [PutRequest (kv 1 "a"); PutRequest (kv 2 "b"); PutRequest (kv 3 "c")]
             (__init__ "t" echo_client 2 None 0) in
  sent (_flush w).2 = [("t", [PutRequest (kv 1 "a"); PutRequest (kv 2 "b")])] ∧
  buffer (_flush w).2
  = [PutRequest (kv 3 "c"); PutRequest (kv 1 "a"); PutRequest (kv 2 "b")].
Proof.
  intros w.
  pose proof (flush_sends_front_requeues_at_end w ltac:(reflexivity)) as (_ & Hs & Hb).
  split; [exact Hs | exact (proj2 Hb)].
Defined.

(** C8, as the code has it.  When the response has the
    ['UnprocessedItems'] entry and its value is [None], an empty dict, a
    dict without the table's name or one with an empty list under it,
    the flush returns and leaves in the buffer the remainder and nothing
    else. *)
Theorem flush_nothing_unprocessed (w : world) (resp : response) (u : py_unprocessed) :
  let s := self w in
  _client s (length (sent w)) (_table_name s)
    (slice_to (_flush_amount s) (buffer w)) = Return resp →
  resp !! "UnprocessedItems" = Some u →
  u = PyNone ∨ u = PyDict ∅ ∨
    (∃ m, u = PyDict m ∧ m !! _table_name s = None) ∨
    (∃ m, u = PyDict m ∧ m !! _table_name s = Some []) →
  (_flush w).1 = Return () ∧
  buffer (_flush w).2 = slice_from (_flush_amount s) (buffer w).
Proof.
  intros s Hcall Hu Hempty.
  pose proof (flush_cases w) as (_ & _ & H). simpl in H. fold s in H.
  rewrite Hcall, Hu in H. destruct H as [H1 H2]. split; [done |].
  rewrite H2.
  assert (item_list (_table_name s) u = []) as ->; [| by rewrite app_nil_r].
  destruct Hempty as [-> | [-> | [(m & -> & Hm) | (m & -> & Hm)]]]; simpl;
    [done | by rewrite lookup_empty | by rewrite Hm | by rewrite Hm].
Qed.

Lemma flush_nothing_unprocessed_witness :
  let w := with_buffer [PutRequest (kv 1 "a"); PutRequest (kv 2 "b"); PutRequest (kv 3 "c")]
             (__init__ "t" (λ _ _ _, Return {["UnprocessedItems" := PyNone]}) 2 None 0) in
  (_flush w).1 = Return () ∧ buffer (_flush w).2 = [PutRequest (kv 3 "c")].
Proof.
  intros w.
  apply (flush_nothing_unprocessed w {["UnprocessedItems" := PyNone]} PyNone);
    [reflexivity | reflexivity | left; reflexivity].
Defined.

(** C8, as stated, fails for a response without the entry: the subscript
    [response['UnprocessedItems']] raises, the batch already off the
    buffer. *)
Lemma flush_response_without_entry :
  let w := with_buffer [PutRequest (kv 1 "a"); PutRequest (kv 2 "b"); PutRequest (kv 3 "c")]
             (__init__ "t" (λ _ _ _, Return ∅) 2 None 0) in
  (_flush w).1 = Raise (KeyError "UnprocessedItems") ∧
  (_flush w).1 ≠ Return () ∧
  buffer (_flush w).2 = [PutRequest (kv 3 "c")].
Proof. by vm_compute. Qed.

(** ** [_add_request_and_process] *)

Lemma flush_if_needed_cases w :
  (_flush_amount (self w) ≤ Z.of_nat (length (buffer w)) ∧ _flush_if_needed w = _flush w) ∨
  (Z.of_nat (length (buffer w)) < _flush_amount (self w) ∧ _flush_if_needed w = (Return (), w)).
Proof.
  unfold _flush_if_needed. case_decide; [left | right]; split; (done || lia).
Qed.

(** The step before [_flush_if_needed]: the scan when
    [overwrite_by_pkeys] is true, then the [append]. *)
Lemma add_request_cases r w :
  (∃ e w1, _add_request_and_process r w = (Raise e, w1) ∧
           truthy (_overwrite_by_pkeys (self w)) = true ∧
           _remove_dup_pkeys_request_if_any r w = (Raise e, w1)) ∨
  (∃ kept, _add_request_and_process r w
             = _flush_if_needed (with_buffer (kept ++ [r]) w) ∧
           if truthy (_overwrite_by_pkeys (self w))
           then _remove_dup_pkeys_request_if_any r w = (Return (), with_buffer kept w)
           else kept = buffer w).
Proof.
  unfold _add_request_and_process.
  destruct (truthy (_overwrite_by_pkeys (self w))) eqn:Ht.
  - destruct (_remove_dup_pkeys_request_if_any r w) as [[[]|e] w1] eqn:Hd.
    + right. exists (buffer w1). split; [| f_equal].
      * f_equal. unfold _remove_dup_pkeys_request_if_any in Hd.
        destruct (_extract_pkey_values _ r); [| done].
        destruct (scan _ _ _ _ _) as [o buf]. by inversion Hd.
      * unfold _remove_dup_pkeys_request_if_any in Hd.
        destruct (_extract_pkey_values _ r); [| done].
        destruct (scan _ _ _ _ _) as [o buf]. by inversion Hd.
    + left. by exists e, w1.
  - right. by exists (buffer w).
Qed.

Lemma remove_dup_world r w :
  ∃ kept, (_remove_dup_pkeys_request_if_any r w).2 = with_buffer kept w ∧
          sublist kept (buffer w).
Proof.
  unfold _remove_dup_pkeys_request_if_any.
  destruct (_extract_pkey_values _ r) as [vs|e].
  - pose proof (scan_removes (default [] (_overwrite_by_pkeys (self w))) vs
                  (length (buffer w)) 0 (buffer w)) as H.
    destruct (scan _ _ _ _ _) as [o buf]. simpl in *.
    exists buf. split; [done | by eapply removes_sublist].
  - exists (buffer w). split; [by destruct w as [[]] | done].
Qed.

(** C4.  When the [batch_write_item] of the flush that a [put_item] or a
    [delete_item] set off raises, the call raises that exception, and the
    batch is not put back: the buffer as it was when the flush began (the
    entries kept by the de-duplication, then the new request) is the
    batch followed by the buffer as the call leaves it. *)
Theorem backend_error_propagates_batch_dropped
    (r : request) (w w' : world) (o : outcome unit) (batch : list request) (e : exn) :
  _add_request_and_process r w = (o, w') →
  sent w' = sent w ++ [(_table_name (self w), batch)] →
  _client (self w) (length (sent w)) (_table_name (self w)) batch = Raise e →
  o = Raise e ∧
  ∃ kept, sublist kept (buffer w) ∧
          kept ++ [r] = batch ++ buffer w' ∧
          batch = slice_to (_flush_amount (self w)) (kept ++ [r]) ∧
          buffer w' = slice_from (_flush_amount (self w)) (kept ++ [r]).
Proof.
  intros Hrun Hsent Hcall.
  assert (∀ l : list (string * list request), ∀ x, l ≠ l ++ [x]) as Hne.
  { intros l x Heq. apply (f_equal length) in Heq.
    rewrite length_app in Heq. simpl in Heq. lia. }
  destruct (add_request_cases r w) as [(e' & w1 & Hadd & _ & Hd) | (kept & Hadd & Hk)].
  - rewrite Hadd in Hrun. inversion Hrun; subst.
    destruct (remove_dup_world r w) as (k & Hk & _).
    rewrite Hd in Hk. simpl in Hk. subst w'. by apply Hne in Hsent.
  - assert (sublist kept (buffer w)) as Hsub.
    { destruct (truthy _).
      - destruct (remove_dup_world r w) as (k & Hw & Hs).
        rewrite Hk in Hw. simpl in Hw.
        apply (f_equal buffer) in Hw. by rewrite !buffer_with_buffer in Hw; subst k.
      - by subst kept. }
    rewrite Hadd in Hrun. set (w1 := with_buffer (kept ++ [r]) w) in *.
    destruct (flush_if_needed_cases w1) as [[_ Hf] | [_ Hf]]; rewrite Hf in Hrun.
    + pose proof (flush_cases w1) as (Hs1 & _ & H). simpl in H.
      rewrite Hrun in Hs1, H. simpl in Hs1, H.
      rewrite Hsent in Hs1. apply app_inj_tail in Hs1 as [_ Hb].
      assert (batch = slice_to (_flush_amount (self w)) (buffer w1)) as Hbatch
        by congruence.
      rewrite <- Hbatch, Hcall in H. destruct H as [-> Hbuf]. split; [done |].
      exists kept. split; [done |]. rewrite Hbuf, Hbatch.
      by rewrite slice_to_from.
    + inversion Hrun; subst. by apply Hne in Hsent.
Qed.

Lemma backend_error_propagates_batch_dropped_witness :
  let w := __init__ "t" failing_client 1 None 0 in
  (put_item (kv 1 "a") w).1
    = Raise (ClientError "ProvisionedThroughputExceededException") ∧
  buffer (put_item (kv 1 "a") w).2 = [].
Proof.
  intros w.
  destruct (backend_error_propagates_batch_dropped (PutRequest (kv 1 "a")) w
              (put_item (kv 1 "a") w).2 (put_item (kv 1 "a") w).1
              [PutRequest (kv 1 "a")]
              (ClientError "ProvisionedThroughputExceededException")
              eq_refl eq_refl eq_refl) as (Ho & kept & _ & _ & _ & Hb).
  split; [exact Ho | reflexivity].
Defined.

Lemma subscripts_missing (d : row) (pkeys : list string) (k : string) :
  k ∈ pkeys → d !! k = None →
  ∃ k', subscripts d pkeys = Raise (KeyError k') ∧ k' ∈ pkeys ∧ d !! k' = None.
Proof.
  induction pkeys as [|key rest IH]; intros Hin Hk; [by apply elem_of_nil in Hin |].
  simpl. destruct (d !! key) as [v|] eqn:Hkey.
  - apply elem_of_cons in Hin as [-> | Hin]; [congruence |].
    destruct (IH Hin Hk) as (k' & -> & Hk' & Hd).
    exists k'. split; [done |]. split; [by right | done].
  - exists key. split; [done |]. split; [by left | done].
Qed.

(** C9.  With [overwrite_by_pkeys] set to a list that names an attribute
    the row (the key) does not have, [put_item] ([delete_item]) raises
    [KeyError] for such an attribute and leaves the writer as it was:
    nothing is appended, nothing is sent. *)
Theorem missing_pkey_fails_fast (w : world) (pkeys : list string) (d : row) (k : string) :
  _overwrite_by_pkeys (self w) = Some pkeys →
  k ∈ pkeys → d !! k = None →
  (∃ k', put_item d w = (Raise (KeyError k'), w) ∧ k' ∈ pkeys ∧ d !! k' = None) ∧
  (∃ k', delete_item d w = (Raise (KeyError k'), w) ∧ k' ∈ pkeys ∧ d !! k' = None).
Proof.
  intros Hp Hin Hk.
  destruct (subscripts_missing d pkeys k Hin Hk) as (k' & Hs & Hk' & Hd).
  assert (truthy (Some pkeys) = true) as Ht.
  { destruct pkeys; [by apply elem_of_nil in Hin | done]. }
  split; exists k'; (split; [| done]);
    unfold put_item, delete_item, _add_request_and_process,
      _remove_dup_pkeys_request_if_any;
    rewrite Hp, Ht; simpl; by rewrite Hs.
Qed.

Lemma missing_pkey_fails_fast_witness :
  let w := with_buffer [PutRequest (kv 1 "a")]
             (__init__ "t" quiet_client 25 (Some ["K"; "S"]) 0) in
  (∃ k', put_item (kv 1 "b") w = (Raise (KeyError k'), w)
         ∧ k' ∈ ["K"; "S"] ∧ kv 1 "b" !! k' = None) ∧
  (∃ k', delete_item (kv 1 "b") w = (Raise (KeyError k'), w)
         ∧ k' ∈ ["K"; "S"] ∧ kv 1 "b" !! k' = None).
Proof.
  intros w.
  apply (missing_pkey_fails_fast w ["K"; "S"] (kv 1 "b") "S");
    [reflexivity | apply list_elem_of_further, list_elem_of_here | reflexivity].
Defined.

(** [_flush] and [_flush_if_needed] do not read [overwrite_by_pkeys]. *)
Lemma flush_with_pkeys p w :
  _flush (with_pkeys p w) = ((_flush w).1, with_pkeys p (_flush w).2).
Proof.
  unfold _flush. simpl.
  destruct (_client _ _ _ _) as [resp|e]; [| done].
  by destruct (resp !! "UnprocessedItems").
Qed.

Lemma flush_if_needed_with_pkeys p w :
  _flush_if_needed (with_pkeys p w)
  = ((_flush_if_needed w).1, with_pkeys p (_flush_if_needed w).2).
Proof.
  unfold _flush_if_needed. simpl. unfold buffer. simpl.
  case_decide; [apply flush_with_pkeys | done].
Qed.

Lemma add_request_falsy r w :
  truthy (_overwrite_by_pkeys (self w)) = false →
  _add_request_and_process r w = _flush_if_needed (with_buffer (buffer w ++ [r]) w).
Proof. intros Ht. unfold _add_request_and_process. by rewrite Ht. Qed.

Lemma do_call_request c w : do_call c w = _add_request_and_process (request_of c) w.
Proof. by destruct c. Qed.

Lemma do_calls_falsy p cs w :
  truthy p = false →
  do_calls cs (with_pkeys p w)
  = ((do_calls cs (with_pkeys None w)).1,
     with_pkeys p (do_calls cs (with_pkeys None w)).2).
Proof.
  intros Ht. revert w. induction cs as [|c cs IH]; intros w; simpl.
  - done.
  - rewrite !do_call_request, !add_request_falsy by done.
    change (with_buffer ?b (with_pkeys ?q w)) with (with_pkeys q (with_buffer b w)).
    rewrite !flush_if_needed_with_pkeys.
    destruct (_flush_if_needed _) as [[[]|e] w1]; simpl; [| done].
    rewrite (IH w1). f_equal.
Qed.

(** C10.  When [overwrite_by_pkeys] is the empty list (or [None]: any
    value that is false), [_add_request_and_process] appends the request
    to the buffer as it is and goes on to the flush check, without a scan;
    one call, and any sequence of calls, ends with the outcome and the
    world it has with [overwrite_by_pkeys=None], the field itself
    apart. *)
Theorem falsy_pkeys_disable_dedup (p : option (list string)) (w : world) :
  truthy p = false →
  (∀ r, _add_request_and_process r (with_pkeys p w)
        = _flush_if_needed (with_buffer (buffer w ++ [r]) (with_pkeys p w))) ∧
  (∀ Item, put_item Item (with_pkeys p w)
           = ((put_item Item (with_pkeys None w)).1,
              with_pkeys p (put_item Item (with_pkeys None w)).2)) ∧
  (∀ Key, delete_item Key (with_pkeys p w)
          = ((delete_item Key (with_pkeys None w)).1,
             with_pkeys p (delete_item Key (with_pkeys None w)).2)) ∧
  (∀ cs, do_calls cs (with_pkeys p w)
         = ((do_calls cs (with_pkeys None w)).1,
            with_pkeys p (do_calls cs (with_pkeys None w)).2)).
Proof.
  intros Ht.
  assert (∀ r, _add_request_and_process r (with_pkeys p w)
               = ((_add_request_and_process r (with_pkeys None w)).1,
                  with_pkeys p (_add_request_and_process r (with_pkeys None w)).2)) as Hadd.
  { intros r. rewrite !add_request_falsy by done.
    change (with_buffer ?b (with_pkeys ?q w)) with (with_pkeys q (with_buffer b w)).
    by rewrite !flush_if_needed_with_pkeys. }
  split; [| split; [| split]].
  - intros r. by rewrite add_request_falsy.
  - intros Item. apply Hadd.
  - intros Key. apply Hadd.
  - intros cs. by apply do_calls_falsy.
Qed.

Lemma falsy_pkeys_disable_dedup_witness :
  let w := __init__ "t" quiet_client 25 None 0 in
  (do_calls [put_call (kv 1 "a"); put_call (kv 1 "b")] (with_pkeys (Some []) w)).1
    = Return () ∧
  buffer (do_calls [put_call (kv 1 "a"); put_call (kv 1 "b")] (with_pkeys (Some []) w)).2
    = [PutRequest (kv 1 "a"); PutRequest (kv 1 "b")].
Proof.
  intros w.
  destruct (falsy_pkeys_disable_dedup (Some []) w eq_refl) as (_ & _ & _ & H).
  rewrite (H [put_call (kv 1 "a"); put_call (kv 1 "b")]).
  split; reflexivity.
Defined.

(** ** [__aexit__] *)


Lemma aexit_nil exc fuel w : buffer w = [] → __aexit__ exc fuel w = Some (Return (), w).
Proof. intros H. destruct fuel; simpl; by rewrite H. Qed.

Lemma aexit_step exc fuel w :
  buffer w ≠ [] →
  __aexit__ exc (S fuel) w =
    match _flush w with
    | (Raise e, w1) => Some (Raise e, w1)
    | (Return _, w1) =>
        __aexit__ exc fuel
          (if bool_decide (buffer w1 ≠ []) && bool_decide (_on_exit_loop_sleep (self w1) ≠ 0)
           then sleep (_on_exit_loop_sleep (self w1)) w1 else w1)
    end.
Proof. intros H. simpl. by destruct (buffer w). Qed.

Lemma aexit_returns_empty exc fuel w w' :
  __aexit__ exc fuel w = Some (Return (), w') → buffer w' = [].
Proof.
  revert w. induction fuel as [|fuel IH]; intros w; simpl.
  - destruct (buffer w) eqn:Hb; [| done]. by intros [= <-].
  - destruct (buffer w) eqn:Hb; [by intros [= <-] |].
    destruct (_flush w) as [[[]|e] w1]; [apply IH | done].
Qed.

Lemma after_flush_sleep w1 :
  let w2 := if bool_decide (buffer w1 ≠ []) && bool_decide (_on_exit_loop_sleep (self w1) ≠ 0)
            then sleep (_on_exit_loop_sleep (self w1)) w1 else w1 in
  self w2 = self w1 ∧ sent w2 = sent w1.
Proof. simpl. by destruct (_ && _). Qed.



Lemma aexit_accepts_all exc fuel w :
  accepts_all (_client (self w)) → 0 < _flush_amount (self w) →
  (length (buffer w) ≤ fuel)%nat →
  ∃ w' batches,
    __aexit__ exc fuel w = Some (Return (), w') ∧ buffer w' = [] ∧
    sent w' = sent w ++ batches ∧ concat batches.*2 = buffer w.
Proof.
  revert w. induction fuel as [|fuel IH]; intros w Hc Hpos Hlen.
  - assert (buffer w = []) as Hb by (destruct (buffer w); [done | simpl in Hlen; lia]).
    exists w, []. rewrite aexit_nil by done. by rewrite app_nil_r, Hb.
  - destruct (decide (buffer w = [])) as [Hb|Hb].
    { exists w, []. rewrite aexit_nil by done. by rewrite app_nil_r, Hb. }
    rewrite aexit_step by done.
    pose proof (flush_cases w) as (Hs & _ & H). simpl in H, Hs.
    pose proof (flush_config w) as (_ & Hcl & Hfa & _).
    destruct (Hc (length (sent w)) (_table_name (self w))
                (slice_to (_flush_amount (self w)) (buffer w)))
      as (resp & u & Hcall & Hu & Hnone).
    rewrite Hcall, Hu, Hnone, app_nil_r in H. destruct H as [H1 H2].
    destruct (_flush w) as [o1 w1]. simpl in *. subst o1.
    pose proof (after_flush_sleep w1) as [Hself Hsent]. simpl in Hself, Hsent.
    set (w2 := if _ && _ then _ else w1) in *.
    assert (buffer w2 = buffer w1) as Hbuf by (unfold buffer; by rewrite Hself).
    destruct (IH w2) as (w' & batches & Hrun & Hempty & Hsent' & Hcat).
    + by rewrite Hself, Hcl.
    + by rewrite Hself, Hfa.
    + rewrite Hbuf, H2. pose proof (slice_from_shorter _ _ Hpos Hb). lia.
    + exists w', ((_table_name (self w), slice_to (_flush_amount (self w)) (buffer w))
                  :: batches).
      split; [done |]. split; [done |]. split.
      * by rewrite Hsent', Hsent, Hs, <- app_assoc.
      * rewrite fmap_cons.
        change (concat (?x :: ?l)) with (x ++ concat l).
        rewrite Hcat, Hbuf, H2. apply slice_to_from.
Qed.




Lemma quiet_client_accepts_all : accepts_all quiet_client.
Proof. intros n t b. by exists {["UnprocessedItems" := PyDict ∅]}, (PyDict ∅). Qed.





(** The run of that witness: the batch that came back is sent again,
    behind the request that was waiting. *)
Lemma exit_sends_again_what_came_back :
  let w := with_buffer [PutRequest (kv 1 "a"); PutRequest (kv 2 "b"); PutRequest (kv 3 "c")]
             (__init__ "t" throttled_once_client 2 None 0) in
  fst <$> __aexit__ None 3 w = Some (Return ()) ∧
  buffer ∘ snd <$> __aexit__ None 3 w = Some [] ∧
  sent ∘ snd <$> __aexit__ None 3 w
  = Some [("t", [PutRequest (kv 1 "a"); PutRequest (kv 2 "b")]);
          ("t", [PutRequest (kv 3 "c"); PutRequest (kv 1 "a")]);
          ("t", [PutRequest (kv 2 "b")])].
Proof. intros w. repeat split; vm_compute; reflexivity. Qed.

(** ** De-duplication *)

Lemma remove_dup_returns w pkeys r vs :
  _overwrite_by_pkeys (self w) = Some pkeys →
  _extract_pkey_values pkeys r = Return vs →
  Forall (extracts pkeys) (buffer w) →
  _remove_dup_pkeys_request_if_any r w
  = (Return (), with_buffer (scan pkeys vs (length (buffer w)) 0 (buffer w)).2 w).
Proof.
  intros Hp Hr Hex. unfold _remove_dup_pkeys_request_if_any.
  rewrite Hp. simpl. rewrite Hr.
  pose proof (scan_returns pkeys vs (length (buffer w)) 0 (buffer w) Hex) as Ho.
  destruct (scan _ _ _ _ _) as [o buf]. simpl in *. by subst o.
Qed.

Lemma add_request_returns w pkeys r kept :
  _overwrite_by_pkeys (self w) = Some pkeys → pkeys ≠ [] →
  _remove_dup_pkeys_request_if_any r w = (Return (), with_buffer kept w) →
  _add_request_and_process r w = _flush_if_needed (with_buffer (kept ++ [r]) w).
Proof.
  intros Hp Hne Hd. unfold _add_request_and_process. rewrite Hp.
  destruct pkeys; [done |]. simpl. by rewrite Hd.
Qed.

(** C7, as the code has it.  With [overwrite_by_pkeys] set and a tuple
    for every buffered entry and for the incoming request, the scan
    returns, and the buffer that goes to the flush check is the old one
    without some entries that have the tuple of the incoming request,
    followed by that request.  The first entry with the tuple is always
    among those removed; when no other entry has the tuple it is the only
    one removed, and when none has it nothing is removed. *)
Theorem dedup_removes_first_match
    (w : world) (pkeys : list string) (r : request) (vs : list value) :
  _overwrite_by_pkeys (self w) = Some pkeys → pkeys ≠ [] →
  _extract_pkey_values pkeys r = Return vs →
  Forall (extracts pkeys) (buffer w) →
  ∃ kept,
    _remove_dup_pkeys_request_if_any r w = (Return (), with_buffer kept w) ∧
    _add_request_and_process r w = _flush_if_needed (with_buffer (kept ++ [r]) w) ∧
    removes (matches pkeys vs) (buffer w) kept ∧
    (Forall (λ y, ¬ matches pkeys vs y) (buffer w) → kept = buffer w) ∧
    (∀ pre x post,
       buffer w = pre ++ x :: post →
       Forall (λ y, ¬ matches pkeys vs y) pre → matches pkeys vs x →
       ∃ post', kept = pre ++ post' ∧
                removes (matches pkeys vs) post post' ∧
                (Forall (λ y, ¬ matches pkeys vs y) post → post' = post)).
Proof.
  intros Hp Hne Hr Hex.
  exists (scan pkeys vs (length (buffer w)) 0 (buffer w)).2.
  pose proof (remove_dup_returns w pkeys r vs Hp Hr Hex) as Hd.
  pose proof (scan_removes pkeys vs (length (buffer w)) 0 (buffer w)) as Hrem.
  split; [done |]. split; [by eapply add_request_returns |].
  split; [done |]. split.
  - intros Hno. by eapply removes_none.
  - intros pre x post Hbuf Hpre Hx. rewrite Hbuf in Hex, Hrem |- *.
    apply Forall_app in Hex as [Hex1 _].
    destruct (scan_first_match pkeys vs (length (pre ++ x :: post)) 0 pre x post)
      as [n' Hscan]; [done.. | lia | lia |].
    rewrite Hscan.
    pose proof (scan_removes pkeys vs n' (S (length pre)) (pre ++ post)) as Hrem'.
    destruct (removes_prefix _ _ _ _ Hpre Hrem') as (post' & Hk & Hpost').
    exists post'. split; [done |]. split; [done |].
    intros Hno. by eapply removes_none.
Qed.

Lemma dedup_removes_first_match_witness :
  let w := with_buffer [PutRequest (kv 2 "b"); PutRequest (kv 1 "a"); PutRequest (kv 3 "c")]
             (__init__ "t" quiet_client 25 (Some ["K"]) 0) in
  ∃ kept,
    _add_request_and_process (PutRequest (kv 1 "d")) w
    = _flush_if_needed (with_buffer (kept ++ [PutRequest (kv 1 "d")]) w) ∧
    kept = [PutRequest (kv 2 "b"); PutRequest (kv 3 "c")].
Proof.
  intros w.
  destruct (dedup_removes_first_match w ["K"] (PutRequest (kv 1 "d")) [VNum 1])
    as (kept & Hd & Hadd & _ & _ & _).
  - reflexivity.
  - discriminate.
  - reflexivity.
  - repeat constructor; eexists; reflexivity.
  - exists kept. split; [exact Hadd |].
    apply (f_equal snd) in Hd. apply (f_equal buffer) in Hd. symmetry. exact Hd.
Defined.

(** C7, as stated, fails: the scan goes on after a removal, and an entry
    further on with the same tuple is removed as well. *)
Lemma dedup_removes_two_entries :
  let w := with_buffer [PutRequest (kv 1 "a"); PutRequest (kv 2 "b"); PutRequest (kv 1 "c")]
             (__init__ "t" quiet_client 25 (Some ["K"]) 0) in
  _remove_dup_pkeys_request_if_any (PutRequest (kv 1 "d")) w
    = (Return (), with_buffer [PutRequest (kv 2 "b")] w) ∧
  buffer (put_item (kv 1 "d") w).2 = [PutRequest (kv 2 "b"); PutRequest (kv 1 "d")] ∧
  ¬ (length (buffer w) ≤ length [PutRequest (kv 2 "b")] + 1)%nat.
Proof.
  split; [by vm_compute |]. split; [by vm_compute |]. simpl. lia.
Qed.

(** ** The invariant of the buffer *)

Lemma tidy_no_equal_tuples pkeys buf : tidy pkeys buf → no_equal_tuples pkeys buf.
Proof.
  intros [_ Hnd] i j x y vs Hi Hj Hx Hy.
  apply (NoDup_lookup _ i j (Return vs) Hnd); rewrite list_lookup_fmap.
  - by rewrite Hi; simpl; rewrite Hx.
  - by rewrite Hj; simpl; rewrite Hy.
Qed.

(** One call on a tidy buffer: either the tuple of the request cannot be
    extracted and nothing happens, or the entry with that tuple, if any,
    leaves, the request is appended and the flush check follows. *)
Lemma add_request_tidy w pkeys r :
  _overwrite_by_pkeys (self w) = Some pkeys → pkeys ≠ [] →
  tidy pkeys (buffer w) →
  (∃ e, _extract_pkey_values pkeys r = Raise e ∧
        _add_request_and_process r w = (Raise e, w)) ∨
  (∃ vs, _extract_pkey_values pkeys r = Return vs ∧
         let kept := filter (λ y, ¬ matches pkeys vs y) (buffer w) in
         _add_request_and_process r w
           = _flush_if_needed (with_buffer (kept ++ [r]) w) ∧
         tidy pkeys (kept ++ [r])).
Proof.
  intros Hp Hne Htidy.
  destruct (_extract_pkey_values pkeys r) as [vs|e] eqn:Hr.
  - right. exists vs. split; [done |]. simpl. split; [| by apply tidy_snoc].
    apply (add_request_returns w pkeys); [done.. |].
    rewrite (remove_dup_returns w pkeys r vs) by (done || by destruct Htidy).
    by rewrite scan_tidy.
  - left. exists e. split; [done |].
    unfold _add_request_and_process, _remove_dup_pkeys_request_if_any.
    rewrite Hp. destruct pkeys; [done |]. simpl in *. by rewrite Hr.
Qed.

Lemma flush_if_needed_config w : same_config w (_flush_if_needed w).2.
Proof.
  destruct (flush_if_needed_cases w) as [[_ ->] | [_ ->]];
    [apply flush_config | apply same_config_refl].
Qed.

Lemma flush_if_needed_submseteq w :
  returns_sent_items (_client (self w)) → buffer (_flush_if_needed w).2 ⊆+ buffer w.
Proof.
  intros Hc. destruct (flush_if_needed_cases w) as [[_ ->] | [_ ->]];
    [by apply flush_submseteq | done].
Qed.

Lemma add_request_inv w pkeys r :
  _overwrite_by_pkeys (self w) = Some pkeys → pkeys ≠ [] →
  returns_sent_items (_client (self w)) →
  tidy pkeys (buffer w) →
  let w' := (_add_request_and_process r w).2 in
  same_config w w' ∧ tidy pkeys (buffer w') ∧
  (∀ x, x ∈ buffer w' →
        _extract_pkey_values pkeys x = _extract_pkey_values pkeys r → x = r).
Proof.
  intros Hp Hne Hc Htidy.
  destruct (add_request_tidy w pkeys r Hp Hne Htidy)
    as [(e & Hr & ->) | (vs & Hr & Hadd & Htidy')]; simpl.
  - split; [apply same_config_refl |]. split; [done |].
    intros x Hx Heq. rewrite Hr in Heq.
    destruct Htidy as [Hex _]. rewrite Forall_forall in Hex.
    destruct (Hex x Hx) as [vs' ?]. congruence.
  - simpl in Hadd. rewrite Hadd.
    set (w1 := with_buffer _ w) in *.
    pose proof (flush_if_needed_config w1) as Hcfg.
    pose proof (flush_if_needed_submseteq w1 Hc) as Hsub.
    split; [done |]. split; [by eapply tidy_submseteq |].
    intros x Hx Heq.
    apply (elem_of_submseteq _ _ _ Hx) in Hsub.
    unfold w1 in Hsub. rewrite buffer_with_buffer in Hsub.
    apply elem_of_app in Hsub as [Hin | Hin].
    + apply list_elem_of_filter in Hin as [Hm _]. unfold matches in Hm. congruence.
    + by apply list_elem_of_singleton in Hin.
Qed.

Lemma aexit_inv exc fuel w o w' :
  returns_sent_items (_client (self w)) →
  __aexit__ exc fuel w = Some (o, w') →
  same_config w w' ∧ buffer w' ⊆+ buffer w.
Proof.
  revert w. induction fuel as [|fuel IH]; intros w Hc.
  - simpl. destruct (buffer w) eqn:Hb; [| done]. intros [= _ <-].
    split; [apply same_config_refl | by rewrite Hb].
  - destruct (decide (buffer w = [])) as [Hb|Hb].
    { rewrite aexit_nil by done. intros [= _ <-].
      split; [apply same_config_refl | done]. }
    rewrite aexit_step by done.
    pose proof (flush_config w) as Hcfg.
    pose proof (flush_submseteq w Hc) as Hsub.
    destruct (_flush w) as [[[]|e] w1]; simpl in *.
    + pose proof (after_flush_sleep w1) as [Hself _]. simpl in Hself.
      set (w2 := if _ && _ then _ else w1) in *.
      intros Hrun. apply IH in Hrun as [Hcfg' Hsub'].
      * split.
        -- eapply same_config_trans; [done |]. unfold same_config in *.
           by rewrite <- Hself.
        -- etrans; [done |]. unfold buffer in *. by rewrite Hself.
      * rewrite Hself. by destruct Hcfg as (_ & -> & _).
    + by intros [= _ <-].
Qed.

(** What every observable world of a writer with [overwrite_by_pkeys]
    set has, when the back end returns only what it was sent. *)
Lemma reachable_inv table c fa pkeys sl w :
  pkeys ≠ [] → returns_sent_items c →
  reachable (__init__ table c fa (Some pkeys) sl) w →
  _overwrite_by_pkeys (self w) = Some pkeys ∧ _client (self w) = c ∧
  tidy pkeys (buffer w).
Proof.
  intros Hne Hc Hreach.
  induction Hreach as [| w Item o w' _ (Hp & Hcl & Htidy) Hrun
                       | w Key o w' _ (Hp & Hcl & Htidy) Hrun
                       | w exc fuel o w' _ (Hp & Hcl & Htidy) Hrun].
  - repeat split; [by constructor | constructor].
  - rewrite <- Hcl in Hc.
    pose proof (add_request_inv w pkeys (PutRequest Item) Hp Hne Hc Htidy) as H.
    unfold put_item in Hrun. rewrite Hrun in H. simpl in H.
    destruct H as ((_ & Hcl' & _ & Hp' & _) & Htidy' & _).
    split; [congruence |]. split; [congruence | done].
  - rewrite <- Hcl in Hc.
    pose proof (add_request_inv w pkeys (DeleteRequest Key) Hp Hne Hc Htidy) as H.
    unfold delete_item in Hrun. rewrite Hrun in H. simpl in H.
    destruct H as ((_ & Hcl' & _ & Hp' & _) & Htidy' & _).
    split; [congruence |]. split; [congruence | done].
  - rewrite <- Hcl in Hc.
    destruct (aexit_inv _ _ _ _ _ Hc Hrun) as ((_ & Hcl' & _ & Hp' & _) & Hsub).
    split; [congruence |]. split; [congruence |]. by eapply tidy_submseteq.
Qed.

(** A call that stays below [flush_amount]. *)
Lemma add_request_below w pkeys r vs :
  _overwrite_by_pkeys (self w) = Some pkeys → pkeys ≠ [] →
  tidy pkeys (buffer w) →
  _extract_pkey_values pkeys r = Return vs →
  let kept := filter (λ y, ¬ matches pkeys vs y) (buffer w) in
  Z.of_nat (length (kept ++ [r])) < _flush_amount (self w) →
  _add_request_and_process r w = (Return (), with_buffer (kept ++ [r]) w).
Proof.
  intros Hp Hne Htidy Hr kept Hlen.
  destruct (add_request_tidy w pkeys r Hp Hne Htidy)
    as [(e & Hr' & _) | (vs' & Hr' & Hadd & _)]; [congruence |].
  assert (vs' = vs) as -> by congruence.
  simpl in Hadd. rewrite Hadd. fold kept.
  destruct (flush_if_needed_cases (with_buffer (kept ++ [r]) w)) as [[H _] | [_ ->]];
    [| done].
  rewrite buffer_with_buffer in H. simpl in H. lia.
Qed.

Lemma dedup_example (table : string) (c : client) (fa sl : Z) :
  2 ≤ fa →
  do_calls [put_call (kv 1 "a"); put_call (kv 1 "b")]
    (__init__ table c fa (Some ["K"]) sl)
  = (Return (), with_buffer [PutRequest (kv 1 "b")] (__init__ table c fa (Some ["K"]) sl)).
Proof.
  intros Hfa. set (w0 := __init__ table c fa (Some ["K"]) sl).
  assert (_extract_pkey_values ["K"] (PutRequest (kv 1 "a")) = Return [VNum 1]) as Ha
    by reflexivity.
  assert (_extract_pkey_values ["K"] (PutRequest (kv 1 "b")) = Return [VNum 1]) as Hb
    by reflexivity.
  simpl. unfold put_item.
  rewrite (add_request_below w0 ["K"] _ [VNum 1]); [| done | done | | done | simpl; lia].
  2:{ split; constructor. }
  change (buffer w0) with (@nil request). rewrite filter_nil. simpl.
  set (w1 := with_buffer _ w0).
  assert (filter (λ y, ¬ matches ["K"] [VNum 1] y) (buffer w1) = []) as Hkept.
  { unfold w1. rewrite buffer_with_buffer, filter_cons_False by (by intros []).
    by rewrite filter_nil. }
  rewrite (add_request_below w1 ["K"] _ [VNum 1]); [| done | done | | done |].
  - by rewrite Hkept.
  - split; [repeat constructor; by exists [VNum 1] |].
    simpl. apply NoDup_singleton.
  - rewrite Hkept. simpl. lia.
Qed.

(** C1.  A writer made with a non-empty [overwrite_by_pkeys], over a back
    end that returns as unprocessed only requests of the batch it was
    sent.  In every world the application can observe (after any
    [put_item], [delete_item] and [__aexit__], returned or raised) no two
    buffered requests have the same tuple.  The newest wins: after one
    more call, a buffered request with the tuple of the incoming one is
    the incoming one, and when the call returned without a flush the
    incoming request is the last of the buffer, after entries that were
    there.  The example of the specification: [put({K: 1, V: "a"})] then
    [put({K: 1, V: "b"})], below [flush_amount], leaves the one entry
    with ["b"]. *)
Theorem no_equal_tuples_newest_wins
    (table : string) (c : client) (fa : Z) (pkeys : list string) (sl : Z) (w : world) :
  pkeys ≠ [] → returns_sent_items c →
  reachable (__init__ table c fa (Some pkeys) sl) w →
  no_equal_tuples pkeys (buffer w) ∧
  (∀ r x, x ∈ buffer (_add_request_and_process r w).2 →
          _extract_pkey_values pkeys x = _extract_pkey_values pkeys r → x = r) ∧
  (∀ r, (_add_request_and_process r w).1 = Return () →
        sent (_add_request_and_process r w).2 = sent w →
        ∃ kept, buffer (_add_request_and_process r w).2 = kept ++ [r] ∧
                sublist kept (buffer w)) ∧
  (∀ fa', 2 ≤ fa' →
     do_calls [put_call (kv 1 "a"); put_call (kv 1 "b")]
       (__init__ table c fa' (Some ["K"]) sl)
     = (Return (),
        with_buffer [PutRequest (kv 1 "b")] (__init__ table c fa' (Some ["K"]) sl))).
Proof.
  intros Hne Hc Hreach.
  destruct (reachable_inv table c fa pkeys sl w Hne Hc Hreach) as (Hp & Hcl & Htidy).
  split; [by apply tidy_no_equal_tuples |]. split; [| split].
  - intros r. rewrite <- Hcl in Hc.
    by destruct (add_request_inv w pkeys r Hp Hne Hc Htidy) as (_ & _ & ?).
  - intros r Ho Hsent.
    destruct (add_request_tidy w pkeys r Hp Hne Htidy)
      as [(e & _ & Hadd) | (vs & _ & Hadd & _)].
    + by rewrite Hadd in Ho.
    + simpl in Hadd. rewrite Hadd in Ho, Hsent |- *.
      set (kept := filter _ _) in *.
      destruct (flush_if_needed_cases (with_buffer (kept ++ [r]) w))
        as [[_ Hf] | [_ Hf]]; rewrite Hf in Ho, Hsent |- *.
      * pose proof (flush_cases (with_buffer (kept ++ [r]) w)) as (Hs & _).
        rewrite Hsent in Hs. simpl in Hs.
        apply (f_equal length) in Hs. rewrite length_app in Hs. simpl in Hs. lia.
      * exists kept. split; [done | apply sublist_filter].
  - intros fa' Hfa'. by apply dedup_example.
Qed.

Lemma echo_client_returns_sent_items : returns_sent_items echo_client.
Proof.
  intros n table batch resp u [= <-] Hu.
  rewrite lookup_singleton_eq in Hu. injection Hu as <-.
  simpl. by rewrite lookup_singleton_eq.
Qed.

Lemma no_equal_tuples_newest_wins_witness :
  let w0 := __init__ "t" echo_client 2 (Some ["K"]) 0 in
  let w := (do_calls [put_call (kv 1 "a"); put_call (kv 2 "b"); delete_call (kv 1 "c")] w0).2 in
  buffer w = [PutRequest (kv 2 "b"); DeleteRequest (kv 1 "c")] ∧
  no_equal_tuples ["K"] (buffer w).
Proof.
  intros w0 w. split; [reflexivity |].
  refine (proj1 (no_equal_tuples_newest_wins "t" echo_client 2 ["K"] 0 w _
                   echo_client_returns_sent_items _)).
  - discriminate.
  - set (w1 := (put_item (kv 1 "a") w0).2).
    set (w2 := (put_item (kv 2 "b") w1).2).
    apply (reach_delete w0 w2 (kv 1 "c") (Return ()) w); [| reflexivity].
    apply (reach_put w0 w1 (kv 2 "b") (Return ()) w2); [| reflexivity].
    apply (reach_put w0 w0 (kv 1 "a") (Return ()) w1); [| reflexivity].
    apply reach_init.
Defined.

(** The contract of the back end is needed: requests are appended as
    they come back, without a scan. *)
Lemma doubling_client_breaks_invariant :
  let w := (put_item (kv 1 "a") (__init__ "t" doubling_client 1 (Some ["K"]) 0)).2 in
  buffer w = [PutRequest (kv 1 "a"); PutRequest (kv 1 "a")] ∧
  ¬ no_equal_tuples ["K"] (buffer w).
Proof.
  split; [reflexivity |]. intros H.
  specialize (H 0%nat 1%nat (PutRequest (kv 1 "a")) (PutRequest (kv 1 "a")) [VNum 1]
                eq_refl eq_refl eq_refl eq_refl).
  discriminate.
Qed.

(** ** Below the threshold *)

Lemma with_buffer_id w : with_buffer (buffer w) w = w.
Proof. by destruct w as [[]]. Qed.

Lemma do_calls_below_falsy cs w :
  truthy (_overwrite_by_pkeys (self w)) = false →
  Z.of_nat (length (buffer w) + length cs) < _flush_amount (self w) →
  do_calls cs w = (Return (), with_buffer (buffer w ++ (request_of <$> cs)) w).
Proof.
  revert w. induction cs as [|c cs IH]; intros w Ht Hlen; simpl.
  - by rewrite app_nil_r, with_buffer_id.
  - rewrite do_call_request, add_request_falsy by done.
    set (w1 := with_buffer _ w).
    destruct (flush_if_needed_cases w1) as [[H _] | [_ ->]].
    + unfold w1 in H. rewrite buffer_with_buffer, length_app in H.
      simpl in *. lia.
    + rewrite IH; [| done |].
      * unfold w1. rewrite buffer_with_buffer, <- app_assoc. done.
      * unfold w1. rewrite buffer_with_buffer, length_app. simpl in *. lia.
Qed.

Lemma do_calls_below_truthy pkeys cs w seen :
  _overwrite_by_pkeys (self w) = Some pkeys → pkeys ≠ [] →
  tidy pkeys (buffer w) →
  (∀ k, k ∈ seen ↔ k ∈ _extract_pkey_values pkeys <$> buffer w) →
  Z.of_nat (length (buffer w) + length cs) < _flush_amount (self w) →
  sent (do_calls cs w).2 = sent w ∧
  ((do_calls cs w).1 = Return () →
   (length (buffer (do_calls cs w).2) + collisions_from pkeys seen (request_of <$> cs)
    = length (buffer w) + length cs)%nat).
Proof.
  revert w seen. induction cs as [|c cs IH]; intros w seen Hp Hne Htidy Hseen Hlen.
  - simpl. split; [done | lia].
  - cbn [do_calls]. rewrite do_call_request.
    destruct (add_request_tidy w pkeys (request_of c) Hp Hne Htidy)
      as [(e & Hr & ->) | (vs & Hr & _ & Htidy')]; [done |].
    simpl in Htidy'. set (kept := filter _ _) in *.
    destruct (filter_tidy pkeys vs (buffer w) Htidy) as (Hin & Hnotin & Hkeys).
    fold kept in Hin, Hnotin, Hkeys.
    assert (length kept ≤ length (buffer w))%nat as Hle by apply length_filter.
    rewrite (add_request_below w pkeys _ vs); [| done.. |].
    2:{ fold kept. rewrite length_app. simpl in *. lia. }
    fold kept. set (w1 := with_buffer (kept ++ [request_of c]) w).
    destruct (IH w1 (Return vs :: seen)) as [Hsent Hcount]; [done.. | | |].
    + intros k. unfold w1. rewrite buffer_with_buffer, fmap_app.
      rewrite elem_of_cons, elem_of_app, Hkeys, Hseen. simpl.
      rewrite Hr, list_elem_of_singleton.
      destruct (decide (k = Return vs)); tauto.
    + unfold w1. rewrite buffer_with_buffer, length_app. simpl in *. lia.
    + split; [done |]. intros Ho. specialize (Hcount Ho).
      unfold w1 in Hcount at 2. rewrite buffer_with_buffer, length_app in Hcount.
      rewrite fmap_cons. cbn [collisions_from]. rewrite Hr. simpl in Hcount.
      change (length (c :: cs)) with (S (length cs)).
      case_decide as Hs.
      * apply Hseen, Hin in Hs. lia.
      * rewrite Hseen in Hs. apply Hnotin in Hs. rewrite Hs in Hcount. lia.
Qed.

(** Below the threshold a sequence of calls returns exactly when every
    request has a tuple. *)
Lemma do_calls_below_returns pkeys cs w :
  _overwrite_by_pkeys (self w) = Some pkeys → pkeys ≠ [] →
  tidy pkeys (buffer w) →
  Z.of_nat (length (buffer w) + length cs) < _flush_amount (self w) →
  (do_calls cs w).1 = Return () ↔
  Forall (λ c, extracts pkeys (request_of c)) cs.
Proof.
  revert w. induction cs as [|c cs IH]; intros w Hp Hne Htidy Hlen.
  - simpl. split; [constructor | done].
  - cbn [do_calls]. rewrite do_call_request.
    destruct (add_request_tidy w pkeys (request_of c) Hp Hne Htidy)
      as [(e & Hr & ->) | (vs & Hr & _ & Htidy')].
    + split; [done |]. intros Hall. apply Forall_cons in Hall as [[vs Hvs] _].
      congruence.
    + simpl in Htidy'. set (kept := filter _ _) in *.
      assert (length kept ≤ length (buffer w))%nat as Hle by apply length_filter.
      rewrite (add_request_below w pkeys _ vs); [| done.. |].
      2:{ fold kept. rewrite length_app. simpl in *. lia. }
      fold kept. set (w1 := with_buffer (kept ++ [request_of c]) w).
      rewrite (IH w1); [| done | done | done |].
      * rewrite Forall_cons. split; [| by intros [_ ?]].
        intros Hall. split; [by exists vs | done].
      * unfold w1. rewrite buffer_with_buffer, length_app. simpl in *. lia.
Qed.

(** C6.  A fresh writer that receives at most [flush_amount - 1] calls of
    [put_item] and [delete_item] calls the back end not once.  Without
    [overwrite_by_pkeys], and with it when every request has a value for
    each of its attributes, the calls all return and the buffer has as
    many entries as there were calls less the dedup collisions among them
    (none without [overwrite_by_pkeys]); these are the only sequences
    that return. *)
Theorem below_threshold_no_flush
    (table : string) (c : client) (fa : Z) (p : option (list string)) (sl : Z)
    (cs : list call) :
  Z.of_nat (length cs) ≤ fa - 1 →
  let res := do_calls cs (__init__ table c fa p sl) in
  let have_tuples :=
    truthy p = true → Forall (λ c, extracts (default [] p) (request_of c)) cs in
  let count :=
    Z.of_nat (length (buffer res.2))
    = Z.of_nat (length cs) - Z.of_nat (collisions p (request_of <$> cs)) in
  sent res.2 = [] ∧
  (have_tuples → res.1 = Return () ∧ count) ∧
  (res.1 = Return () → have_tuples ∧ count).
Proof.
  intros Hlen res have_tuples count. unfold count, have_tuples, res, collisions.
  set (w0 := __init__ table c fa p sl).
  destruct (truthy p) eqn:Ht.
  - destruct p as [[|k ks]|]; try done. simpl.
    destruct (do_calls_below_truthy (k :: ks) cs w0 []) as [Hsent Hcount];
      [done | done | by split; constructor | done | simpl; lia |].
    pose proof (do_calls_below_returns (k :: ks) cs w0) as Hret.
    split; [done |]. split.
    + intros Hall. assert ((do_calls cs w0).1 = Return ()) as Ho.
      { apply Hret; [done | done | by split; constructor | simpl; lia | by apply Hall]. }
      split; [done |]. specialize (Hcount Ho). simpl in Hcount. lia.
    + intros Ho. split.
      * intros _. apply Hret; [done | done | by split; constructor | simpl; lia | done].
      * specialize (Hcount Ho). simpl in Hcount. lia.
  - rewrite do_calls_below_falsy; [| done | simpl; lia].
    cbn [fst snd]. rewrite buffer_with_buffer. split; [done |].
    assert (Z.of_nat (length (buffer w0 ++ (request_of <$> cs)))
            = Z.of_nat (length cs) - Z.of_nat 0) as Hcount.
    { change (buffer w0) with (@nil request). rewrite app_nil_l, length_fmap. lia. }
    split; [done |]. intros _. split; [done | done].
Qed.

Lemma below_threshold_no_flush_witness :
  let res := do_calls [put_call (kv 1 "a"); put_call (kv 2 "b"); delete_call (kv 1 "c")]
               (__init__ "t" failing_client 25 (Some ["K"]) 0) in
  sent res.2 = [] ∧ res.1 = Return () ∧ Z.of_nat (length (buffer res.2)) = 3 - 1.
Proof.
  intros res.
  destruct (below_threshold_no_flush "t" failing_client 25 (Some ["K"]) 0
              [put_call (kv 1 "a"); put_call (kv 2 "b"); delete_call (kv 1 "c")]
              ltac:(simpl; lia)) as (Hsent & Hret & _).
  split; [exact Hsent |]. apply Hret. intros _.
  repeat constructor; eexists; reflexivity.
Defined.

(** ** At the threshold *)

Lemma add_request_fresh r w :
  collides_with_nothing r w →
  _add_request_and_process r w = _flush_if_needed (with_buffer (buffer w ++ [r]) w).
Proof.
  intros [Ht | (pkeys & vs & Hp & Hne & Htidy & Hr & Hno)].
  - by apply add_request_falsy.
  - destruct (add_request_tidy w pkeys r Hp Hne Htidy)
      as [(e & Hr' & _) | (vs' & Hr' & Hadd & _)]; [congruence |].
    assert (vs' = vs) as -> by congruence.
    simpl in Hadd. by rewrite Hadd, filter_all.
Qed.

Lemma flush_accepts w :
  accepts_all (_client (self w)) →
  _flush w
  = (Return (),
     mkWorld (set_buffer (slice_from (_flush_amount (self w)) (buffer w)) (self w))
       (sent w ++ [(_table_name (self w), slice_to (_flush_amount (self w)) (buffer w))])
       (slept w)).
Proof.
  intros Hc. unfold _flush.
  destruct (Hc (length (sent w)) (_table_name (self w))
              (slice_to (_flush_amount (self w)) (_items_buffer (self w))))
    as (resp & u & Hcall & Hu & Hnil).
  rewrite Hcall, Hu. unfold with_buffer. simpl. by rewrite Hnil, app_nil_r.
Qed.

(** C5.  [flush_amount = 2], a back end that raises nothing and hands
    nothing back, a fresh writer and three [put_item] that do not collide
    (no [overwrite_by_pkeys], or the first two rows differ in their
    tuples and the third has one): the three calls return, the back end
    was called once, with the first two requests in the order of the
    calls, and the third request is what the buffer holds. *)
Theorem three_puts_one_flush
    (table : string) (c : client) (p : option (list string)) (sl : Z)
    (Item1 Item2 Item3 : row) :
  accepts_all c →
  truthy p = false ∨
    (∃ pkeys v1 v2 v3,
       p = Some pkeys ∧ pkeys ≠ [] ∧
       subscripts Item1 pkeys = Return v1 ∧
       subscripts Item2 pkeys = Return v2 ∧
       subscripts Item3 pkeys = Return v3 ∧ v1 ≠ v2) →
  let res := do_calls [put_call Item1; put_call Item2; put_call Item3]
               (__init__ table c 2 p sl) in
  res.1 = Return () ∧
  sent res.2 = [(table, [PutRequest Item1; PutRequest Item2])] ∧
  buffer res.2 = [PutRequest Item3].
Proof.
  intros Hc Hp res. unfold res. clear res.
  set (w0 := __init__ table c 2 p sl).
  set (w1 := with_buffer [PutRequest Item1] w0).
  set (w2 := mkWorld (set_buffer [] (self w0))
               [(table, [PutRequest Item1; PutRequest Item2])] []).
  assert (put_item Item1 w0 = (Return (), w1)) as H1.
  { unfold put_item. rewrite add_request_fresh.
    - unfold _flush_if_needed. by rewrite decide_False by (simpl; lia).
    - destruct Hp as [Hp | (pkeys & v1 & v2 & v3 & -> & Hne & Hv1 & _)]; [by left |].
      right. exists pkeys, v1. repeat split; (done || constructor). }
  assert (put_item Item2 w1 = (Return (), w2)) as H2.
  { unfold put_item. rewrite add_request_fresh.
    - unfold _flush_if_needed. rewrite decide_True by (simpl; lia).
      by rewrite flush_accepts.
    - destruct Hp as [Hp | (pkeys & v1 & v2 & v3 & -> & Hne & Hv1 & Hv2 & _ & Hv)];
        [by left |].
      right. exists pkeys, v2. split; [done |]. split; [done |]. split; [| split; [done |]].
      + split; [repeat constructor; by exists v1 | apply NoDup_singleton].
      + repeat constructor. unfold matches. simpl. congruence. }
  assert (put_item Item3 w2 = (Return (), with_buffer [PutRequest Item3] w2)) as H3.
  { unfold put_item. rewrite add_request_fresh.
    - unfold _flush_if_needed. by rewrite decide_False by (simpl; lia).
    - destruct Hp as [Hp | (pkeys & v1 & v2 & v3 & -> & Hne & _ & _ & Hv3 & _)];
        [by left |].
      right. exists pkeys, v3. repeat split; (done || constructor). }
  simpl. by rewrite H1, H2, H3.
Qed.

Lemma three_puts_one_flush_witness :
  let res := do_calls [put_call (kv 1 "a"); put_call (kv 2 "b"); put_call (kv 3 "c")]
               (__init__ "t" quiet_client 2 (Some ["K"]) 0) in
  res.1 = Return () ∧
  sent res.2 = [("t", [PutRequest (kv 1 "a"); PutRequest (kv 2 "b")])] ∧
  buffer res.2 = [PutRequest (kv 3 "c")].
Proof.
  apply (three_puts_one_flush "t" quiet_client (Some ["K"]) 0
           (kv 1 "a") (kv 2 "b") (kv 3 "c") quiet_client_accepts_all).
  right. exists ["K"], [VNum 1], [VNum 2], [VNum 3].
  repeat split; (reflexivity || discriminate).
Defined.

(** * Further properties of the writer *)

(** ** [_extract_pkey_values] *)

Lemma extract_attributes pkeys r :
  _extract_pkey_values pkeys r = subscripts (attributes r) pkeys.
Proof. by destruct r. Qed.

Lemma subscripts_returns_iff (d : row) (pkeys : list string) (vs : list value) :
  subscripts d pkeys = Return vs ↔ Forall2 (λ k v, d !! k = Some v) pkeys vs.
Proof.
  revert vs. induction pkeys as [|k ks IH]; intros vs; simpl.
  - split.
    + intros [= <-]. constructor.
    + intros H. by apply Forall2_nil_inv_l in H as ->.
  - destruct (d !! k) as [v|] eqn:Hk.
    + destruct (subscripts d ks) as [vs'|e] eqn:Hs.
      * split.
        -- intros [= <-]. constructor; [done | by apply IH].
        -- intros H. apply Forall2_cons_inv_l in H as (v' & vs'' & Hv & Hvs & ->).
           apply IH in Hvs. congruence.
      * split; [done |].
        intros H. apply Forall2_cons_inv_l in H as (v' & vs'' & _ & Hvs & ->).
        by apply IH in Hvs.
    + split; [done |].
      intros H. apply Forall2_cons_inv_l in H as (v' & vs'' & Hv & _ & ->).
      congruence.
Qed.

Lemma subscripts_raises_iff (d : row) (pkeys : list string) (e : exn) :
  subscripts d pkeys = Raise e ↔
  ∃ pre k post, pkeys = pre ++ k :: post ∧
                Forall (λ k', is_Some (d !! k')) pre ∧
                d !! k = None ∧ e = KeyError k.
Proof.
  revert e. induction pkeys as [|k ks IH]; intros e; simpl.
  - split; [done |]. intros (pre & k & post & H & _). by destruct pre.
  - destruct (d !! k) as [v|] eqn:Hk.
    + assert (subscripts d ks = Raise e ↔
              match subscripts d ks with Return vs => Return (v :: vs) | Raise e' => Raise e' end
              = Raise e) as <- by (by destruct (subscripts d ks)).
      rewrite IH. split.
      * intros (pre & k' & post & -> & Hpre & Hnone & ->).
        exists (k :: pre), k', post. repeat split; [| done]. by constructor.
      * intros (pre & k' & post & Hsplit & Hpre & Hnone & ->).
        destruct pre as [|k0 pre]; simplify_eq/=.
        apply Forall_cons in Hpre as [_ Hpre]. by exists pre, k', post.
    + split.
      * intros [= <-]. exists [], k, ks. by repeat split.
      * intros (pre & k' & post & Hsplit & Hpre & Hnone & ->).
        destruct pre as [|k0 pre]; simplify_eq/=; [done |].
        apply Forall_cons in Hpre as [[? ?] _]. congruence.
Qed.

(** X1.  [_extract_pkey_values] returns the tuple [vs] exactly when the
    request's dict has every attribute of [pkeys], and [vs] lists their
    values in the order of [pkeys]; the tuple has one value for each
    name. *)
Theorem extract_returns_iff (pkeys : list string) (r : request) (vs : list value) :
  (_extract_pkey_values pkeys r = Return vs ↔
   Forall2 (λ k v, attributes r !! k = Some v) pkeys vs) ∧
  (_extract_pkey_values pkeys r = Return vs → length vs = length pkeys).
Proof.
  rewrite extract_attributes. split; [apply subscripts_returns_iff |].
  intros H. apply subscripts_returns_iff in H. symmetry. by eapply Forall2_length.
Qed.

Lemma extract_returns_iff_witness :
  length [VNum 1; VStr "a"] = length ["K"; "V"].
Proof.
  apply (proj2 (extract_returns_iff ["K"; "V"] (PutRequest (kv 1 "a")) [VNum 1; VStr "a"])).
  reflexivity.
Defined.

(** X2.  [_extract_pkey_values] raises exactly when an attribute of
    [pkeys] is not in the request's dict, and what it raises is the
    [KeyError] of the first such attribute in the order of [pkeys]. *)
Theorem extract_raises_first_missing (pkeys : list string) (r : request) (e : exn) :
  _extract_pkey_values pkeys r = Raise e ↔
  ∃ pre k post, pkeys = pre ++ k :: post ∧
                Forall (λ k', is_Some (attributes r !! k')) pre ∧
                attributes r !! k = None ∧ e = KeyError k.
Proof. rewrite extract_attributes. apply subscripts_raises_iff. Qed.

(** X3.  The tuple depends on the attributes named in [pkeys] and on
    nothing else: two requests whose dicts agree on these attributes, a
    put and a delete as well, have the same tuple or raise the same
    [KeyError]. *)
Theorem extract_agrees (pkeys : list string) (r1 r2 : request) :
  (∀ k, k ∈ pkeys → attributes r1 !! k = attributes r2 !! k) →
  _extract_pkey_values pkeys r1 = _extract_pkey_values pkeys r2.
Proof.
  rewrite !extract_attributes. generalize (attributes r1) (attributes r2).
  intros d1 d2. induction pkeys as [|k ks IH]; intros Hagree; simpl; [done |].
  rewrite (Hagree k) by left. rewrite IH; [done |].
  intros k' Hk'. apply Hagree. by right.
Qed.

Lemma extract_agrees_witness :
  _extract_pkey_values ["K"] (PutRequest (kv 1 "a"))
  = _extract_pkey_values ["K"] (DeleteRequest {["K" := VNum 1]}).
Proof.
  apply extract_agrees. intros k Hk.
  apply list_elem_of_singleton in Hk. subst k. reflexivity.
Defined.

(** ** The scan, entry by entry *)

Lemma scan_past_end pkeys vs n i (buf : list request) :
  buf !! i = None → scan pkeys vs n i buf = (Return (), buf).
Proof. intros H. destruct n; simpl; [done | by rewrite H]. Qed.

Lemma scan_passing_over pkeys vs n (pre suf : list request) :
  Forall (extracts pkeys) (pre ++ suf) → NoDup (pre ++ suf) →
  (length suf ≤ n)%nat →
  scan pkeys vs n (length pre) (pre ++ suf)
  = (Return (), pre ++ passing_over pkeys vs suf).
Proof.
  revert pre suf. induction n as [|n IH]; intros pre suf Hex Hnd Hlen.
  - destruct suf; [done | simpl in Hlen; lia].
  - destruct suf as [|x l].
    { apply scan_past_end, lookup_ge_None. rewrite app_nil_r. lia. }
    cbn [scan]. rewrite list_lookup_middle by done.
    assert (extracts pkeys x) as [vs' Hx].
    { rewrite Forall_forall in Hex. apply Hex. set_solver. }
    rewrite Hx. cbn [passing_over].
    destruct (decide (vs' = vs)) as [->|Hne].
    + rewrite (decide_True (P := matches pkeys vs x)) by done.
      rewrite list_remove_split.
      2:{ apply NoDup_app in Hnd as (_ & Hdisj & _). intros Hin.
          apply (Hdisj x Hin). left. }
      destruct l as [|y l'].
      { apply scan_past_end, lookup_ge_None. rewrite app_nil_r. lia. }
      replace (S (length pre)) with (length (pre ++ [y]))
        by (rewrite length_app; simpl; lia).
      rewrite (cons_middle y pre l'), app_assoc.
      rewrite IH; [by rewrite <- app_assoc | | | simpl in Hlen; lia].
      * rewrite <- app_assoc. simpl.
        eapply Forall_sub; [| done].
        apply sublist_app; [done | by apply sublist_cons].
      * rewrite <- app_assoc. simpl.
        eapply sublist_NoDup; [done |].
        apply sublist_app; [done | by apply sublist_cons].
    + rewrite (decide_False (P := matches pkeys vs x))
        by (unfold matches; congruence).
      replace (S (length pre)) with (length (pre ++ [x]))
        by (rewrite length_app; simpl; lia).
      rewrite (cons_middle x pre l), app_assoc.
      rewrite IH; [by rewrite <- app_assoc | | | simpl in Hlen; lia];
        by rewrite <- app_assoc.
Qed.

(** X4.  What the scan does to a buffer of distinct entries that all
    have a tuple: it goes through the buffer from the front, removes an
    entry that has the tuple of the incoming request, and does not look at
    the entry that followed the removed one, which stays in the buffer
    whatever its tuple. *)
Theorem dedup_passes_over_next_entry
    (w : world) (pkeys : list string) (r : request) (vs : list value) :
  _overwrite_by_pkeys (self w) = Some pkeys →
  _extract_pkey_values pkeys r = Return vs →
  Forall (extracts pkeys) (buffer w) → NoDup (buffer w) →
  _remove_dup_pkeys_request_if_any r w
  = (Return (), with_buffer (passing_over pkeys vs (buffer w)) w).
Proof.
  intros Hp Hr Hex Hnd.
  rewrite (remove_dup_returns w pkeys r vs) by done.
  pose proof (scan_passing_over pkeys vs (length (buffer w)) [] (buffer w)) as H.
  simpl in H. by rewrite H.
Qed.

Lemma dedup_passes_over_next_entry_witness :
  let w := with_buffer [PutRequest (kv 1 "a"); PutRequest (kv 1 "c"); PutRequest (kv 2 "b")]
             (__init__ "t" quiet_client 25 (Some ["K"]) 0) in
  _remove_dup_pkeys_request_if_any (PutRequest (kv 1 "d")) w
  = (Return (), with_buffer [PutRequest (kv 1 "c"); PutRequest (kv 2 "b")] w).
Proof.
  intros w.
  apply (dedup_passes_over_next_entry w ["K"] (PutRequest (kv 1 "d")) [VNum 1]).
  - reflexivity.
  - reflexivity.
  - repeat constructor; eexists; reflexivity.
  - refine (bool_decide_unpack _ _). vm_compute. exact I.
Defined.

(** ** What one call does to the world *)

(** Whatever the buffer holds: the call either raises in the scan, with
    some entries gone, or goes to the flush check with the request after
    what the scan kept. *)
Lemma add_request_shape r w :
  (∃ e kept, _add_request_and_process r w = (Raise e, with_buffer kept w) ∧
             sublist kept (buffer w)) ∨
  (∃ kept, _add_request_and_process r w
             = _flush_if_needed (with_buffer (kept ++ [r]) w) ∧
           sublist kept (buffer w)).
Proof.
  destruct (add_request_cases r w) as [(e & w1 & Hadd & _ & Hd) | (kept & Hadd & Hk)].
  - left. destruct (remove_dup_world r w) as (kept & Hw & Hsub).
    rewrite Hd in Hw. simpl in Hw. subst w1. by exists e, kept.
  - right. exists kept. split; [done |].
    destruct (truthy _).
    + destruct (remove_dup_world r w) as (k & Hw & Hs).
      rewrite Hk in Hw. simpl in Hw.
      apply (f_equal buffer) in Hw. by rewrite !buffer_with_buffer in Hw; subst k.
    + by subst kept.
Qed.

Lemma add_request_config (r : request) (w : world) :
  same_config w (_add_request_and_process r w).2.
Proof.
  destruct (add_request_shape r w) as [(e & kept & -> & _) | (kept & -> & _)].
  - by repeat split.
  - apply (flush_if_needed_config (with_buffer (kept ++ [r]) w)).
Qed.

(** X5.  A [put_item] or [delete_item] calls [batch_write_item] at most
    once, for the writer's table, even when the buffer is still at or
    above [flush_amount] afterwards; it never sleeps, and it changes no
    field of the writer but the buffer. *)
Theorem call_sends_at_most_one_batch (r : request) (w : world) :
  let w' := (_add_request_and_process r w).2 in
  same_config w w' ∧ slept w' = slept w ∧
  (sent w' = sent w ∨ ∃ batch, sent w' = sent w ++ [(_table_name (self w), batch)]).
Proof.
  split; [apply add_request_config |].
  destruct (add_request_shape r w) as [(e & kept & -> & _) | (kept & -> & _)]; simpl.
  - split; [done | by left].
  - set (w1 := with_buffer (kept ++ [r]) w).
    destruct (flush_if_needed_cases w1) as [[_ ->] | [_ ->]].
    + pose proof (flush_cases w1) as (Hs & Hsl & _).
      split; [done |]. right. by eexists.
    + split; [done | by left].
Qed.

Lemma aexit_config exc fuel w o w' :
  __aexit__ exc fuel w = Some (o, w') → same_config w w'.
Proof.
  revert w. induction fuel as [|fuel IH]; intros w.
  - simpl. destruct (buffer w); [| done]. intros [= _ <-]. apply same_config_refl.
  - destruct (decide (buffer w = [])) as [Hb|Hb].
    { rewrite aexit_nil by done. intros [= _ <-]. apply same_config_refl. }
    rewrite aexit_step by done.
    pose proof (flush_config w) as Hcfg.
    destruct (_flush w) as [[[]|e] w1]; simpl in *.
    + pose proof (after_flush_sleep w1) as [Hself _]. simpl in Hself.
      set (w2 := if _ && _ then _ else w1) in *.
      intros Hrun. apply IH in Hrun.
      eapply same_config_trans; [done |]. unfold same_config in *.
      by rewrite <- Hself.
    + by intros [= _ <-].
Qed.

Lemma reachable_config w0 w : reachable w0 w → same_config w0 w.
Proof.
  induction 1 as [| w Item o w' _ IH Hrun | w Key o w' _ IH Hrun
                  | w exc fuel o w' _ IH Hrun].
  - apply same_config_refl.
  - eapply same_config_trans; [done |].
    pose proof (add_request_config (PutRequest Item) w) as H.
    unfold put_item in Hrun. by rewrite Hrun in H.
  - eapply same_config_trans; [done |].
    pose proof (add_request_config (DeleteRequest Key) w) as H.
    unfold delete_item in Hrun. by rewrite Hrun in H.
  - eapply same_config_trans; [done |]. by eapply aexit_config.
Qed.

(** ** The batches *)

Lemma flush_well_sized w :
  0 < _flush_amount (self w) → buffer w ≠ [] →
  ∃ batch, sent (_flush w).2 = sent w ++ [(_table_name (self w), batch)] ∧
           well_sized (_table_name (self w)) (_flush_amount (self w))
             (_table_name (self w), batch).
Proof.
  intros Hpos Hb. pose proof (flush_cases w) as (Hs & _). simpl in Hs.
  eexists. split; [done |]. split; [done |]. simpl.
  unfold slice_to. rewrite slice_index_pos by done. split.
  - destruct (buffer w) as [|x l]; [done |].
    destruct (Z.to_nat (_flush_amount (self w))) eqn:Hn; [lia | done].
  - rewrite length_take. lia.
Qed.

Lemma add_request_well_sized r w :
  0 < _flush_amount (self w) →
  Forall (well_sized (_table_name (self w)) (_flush_amount (self w))) (sent w) →
  Forall (well_sized (_table_name (self w)) (_flush_amount (self w)))
    (sent (_add_request_and_process r w).2).
Proof.
  intros Hpos Hsent.
  destruct (add_request_shape r w) as [(e & kept & -> & _) | (kept & -> & _)]; [done |].
  set (w1 := with_buffer (kept ++ [r]) w).
  destruct (flush_if_needed_cases w1) as [[_ ->] | [_ ->]]; [| done].
  destruct (flush_well_sized w1) as (batch & -> & Hbatch); [done | |].
  - unfold w1. rewrite buffer_with_buffer. by destruct kept.
  - apply Forall_app. split; [done |]. by apply Forall_singleton.
Qed.

Lemma aexit_well_sized exc fuel w o w' :
  0 < _flush_amount (self w) →
  __aexit__ exc fuel w = Some (o, w') →
  Forall (well_sized (_table_name (self w)) (_flush_amount (self w))) (sent w) →
  Forall (well_sized (_table_name (self w)) (_flush_amount (self w))) (sent w').
Proof.
  revert w. induction fuel as [|fuel IH]; intros w Hpos.
  - simpl. destruct (buffer w); [| done]. by intros [= _ <-].
  - destruct (decide (buffer w = [])) as [Hb|Hb].
    { rewrite aexit_nil by done. by intros [= _ <-]. }
    rewrite aexit_step by done.
    destruct (flush_well_sized w Hpos Hb) as (batch & Hs & Hbatch).
    pose proof (flush_config w) as (Ht & _ & Hfa & _).
    destruct (_flush w) as [[[]|e] w1]; simpl in *.
    + pose proof (after_flush_sleep w1) as [Hself Hsent]. simpl in Hself, Hsent.
      set (w2 := if _ && _ then _ else w1) in *.
      intros Hrun Hall. rewrite <- Ht, <- Hfa, <- Hself.
      apply (IH w2); [by rewrite Hself, Hfa | done |].
      rewrite Hself, Ht, Hfa, Hsent, Hs.
      apply Forall_app. split; [done |]. by apply Forall_singleton.
    + intros [= _ <-] Hall. rewrite Hs.
      apply Forall_app. split; [done |]. by apply Forall_singleton.
Qed.

(** X6.  With a positive [flush_amount], whatever the back end answers
    and whatever the calls: every [batch_write_item] the writer has made
    is for its table, carries at least one request and at most
    [flush_amount]. *)
Theorem batches_well_sized
    (table : string) (c : client) (fa : Z) (p : option (list string)) (sl : Z)
    (w : world) :
  0 < fa →
  reachable (__init__ table c fa p sl) w →
  Forall (well_sized table fa) (sent w).
Proof.
  intros Hpos Hreach.
  induction Hreach as [| w Item o w' Hreach IH Hrun | w Key o w' Hreach IH Hrun
                       | w exc fuel o w' Hreach IH Hrun].
  - constructor.
  - destruct (reachable_config _ _ Hreach) as (Ht & _ & Hfa & _). simpl in Ht, Hfa.
    pose proof (add_request_well_sized (PutRequest Item) w) as H.
    unfold put_item in Hrun. rewrite Hrun, Ht, Hfa in H. by apply H.
  - destruct (reachable_config _ _ Hreach) as (Ht & _ & Hfa & _). simpl in Ht, Hfa.
    pose proof (add_request_well_sized (DeleteRequest Key) w) as H.
    unfold delete_item in Hrun. rewrite Hrun, Ht, Hfa in H. by apply H.
  - destruct (reachable_config _ _ Hreach) as (Ht & _ & Hfa & _). simpl in Ht, Hfa.
    pose proof (aexit_well_sized exc fuel w o w') as H.
    rewrite Ht, Hfa in H. by apply H.
Qed.

Lemma batches_well_sized_witness :
  let w := (do_calls [put_call (kv 1 "a"); put_call (kv 2 "b"); put_call (kv 3 "c")]
              (__init__ "t" echo_client 2 None 0)).2 in
  Forall (well_sized "t" 2) (sent w).
Proof.
  intros w.
  apply (batches_well_sized "t" echo_client 2 None 0 w); [reflexivity |].
  set (w0 := __init__ "t" echo_client 2 None 0).
  set (w1 := (put_item (kv 1 "a") w0).2).
  set (w2 := (put_item (kv 2 "b") w1).2).
  apply (reach_put w0 w2 (kv 3 "c") (Return ()) w); [| reflexivity].
  apply (reach_put w0 w1 (kv 2 "b") (Return ()) w2); [| reflexivity].
  apply (reach_put w0 w0 (kv 1 "a") (Return ()) w1); [| reflexivity].
  apply reach_init.
Defined.

Lemma hands_nothing_back_contract c : hands_nothing_back c → returns_sent_items c.
Proof.
  intros Hc n table batch resp u Hcall Hu.
  rewrite (Hc n table batch resp u Hcall Hu). apply submseteq_nil_l.
Qed.

Lemma add_request_below_threshold r w :
  hands_nothing_back (_client (self w)) → 0 < _flush_amount (self w) →
  Z.of_nat (length (buffer w)) < _flush_amount (self w) →
  Z.of_nat (length (buffer (_add_request_and_process r w).2)) < _flush_amount (self w).
Proof.
  intros Hc Hpos Hlen.
  destruct (add_request_shape r w) as [(e & kept & -> & Hsub) | (kept & -> & Hsub)].
  - cbn [snd]. rewrite buffer_with_buffer. apply sublist_length in Hsub. lia.
  - apply sublist_length in Hsub.
    set (w1 := with_buffer (kept ++ [r]) w).
    assert (length (buffer w1) = S (length kept)) as Hlen1.
    { unfold w1. rewrite buffer_with_buffer, length_app. simpl. lia. }
    destruct (flush_if_needed_cases w1) as [[Hge ->] | [Hlt ->]].
    + pose proof (flush_cases w1) as (_ & _ & H). simpl in H.
      assert (slice_from (_flush_amount (self w)) (buffer w1) = []) as Hrest.
      { unfold slice_from. rewrite slice_index_pos by done.
        apply drop_ge. lia. }
      rewrite Hrest in H.
      destruct (_client _ _ _ _) as [resp|e] eqn:Hcall.
      * destruct (resp !! "UnprocessedItems") as [u|] eqn:Hu.
        -- destruct H as [_ ->]. rewrite (Hc _ _ _ _ _ Hcall Hu). simpl. lia.
        -- destruct H as [_ ->]. simpl. lia.
      * destruct H as [_ ->]. simpl. lia.
    + simpl in *. lia.
Qed.

(** X10.  With a positive [flush_amount] and a back end that hands
    nothing back (it accepts the batch or raises), the buffer stays below
    [flush_amount] between calls: a call that fills it flushes it. *)
Theorem buffer_below_threshold
    (table : string) (c : client) (fa : Z) (p : option (list string)) (sl : Z)
    (w : world) :
  0 < fa → hands_nothing_back c →
  reachable (__init__ table c fa p sl) w →
  Z.of_nat (length (buffer w)) < fa.
Proof.
  intros Hpos Hc Hreach.
  induction Hreach as [| w Item o w' Hreach IH Hrun | w Key o w' Hreach IH Hrun
                       | w exc fuel o w' Hreach IH Hrun].
  - simpl. lia.
  - destruct (reachable_config _ _ Hreach) as (_ & Hcl & Hfa & _). simpl in Hcl, Hfa.
    pose proof (add_request_below_threshold (PutRequest Item) w) as H.
    unfold put_item in Hrun. rewrite Hrun, Hcl, Hfa in H. by apply H.
  - destruct (reachable_config _ _ Hreach) as (_ & Hcl & Hfa & _). simpl in Hcl, Hfa.
    pose proof (add_request_below_threshold (DeleteRequest Key) w) as H.
    unfold delete_item in Hrun. rewrite Hrun, Hcl, Hfa in H. by apply H.
  - destruct (reachable_config _ _ Hreach) as (_ & Hcl & _). simpl in Hcl.
    destruct (aexit_inv exc fuel w o w') as [_ Hsub]; [| done |].
    + rewrite Hcl. by apply hands_nothing_back_contract.
    + apply submseteq_length in Hsub. lia.
Qed.

Lemma failing_client_hands_nothing_back : hands_nothing_back failing_client.
Proof. by intros n table batch resp u. Qed.

Lemma buffer_below_threshold_witness :
  let w := (do_calls [put_call (kv 1 "a"); put_call (kv 2 "b")]
              (__init__ "t" failing_client 2 None 0)).2 in
  Z.of_nat (length (buffer w)) < 2.
Proof.
  intros w.
  apply (buffer_below_threshold "t" failing_client 2 None 0 w);
    [reflexivity | exact failing_client_hands_nothing_back |].
  set (w0 := __init__ "t" failing_client 2 None 0).
  set (w1 := (put_item (kv 1 "a") w0).2).
  apply (reach_put w0 w1 (kv 2 "b")
           (Raise (ClientError "ProvisionedThroughputExceededException")) w);
    [| reflexivity].
  apply (reach_put w0 w0 (kv 1 "a") (Return ()) w1); [| reflexivity].
  apply reach_init.
Defined.

Lemma flush_tidy_batch pkeys w :
  tidy pkeys (buffer w) →
  Forall (λ b, tidy pkeys b.2) (sent w) →
  Forall (λ b, tidy pkeys b.2) (sent (_flush w).2).
Proof.
  intros Htidy Hsent. pose proof (flush_cases w) as (-> & _). simpl.
  apply Forall_app. split; [done |]. apply Forall_singleton. simpl.
  eapply tidy_submseteq; [| done]. apply submseteq_take.
Qed.

Lemma add_request_tidy_batches pkeys r w :
  _overwrite_by_pkeys (self w) = Some pkeys → pkeys ≠ [] →
  tidy pkeys (buffer w) →
  Forall (λ b, tidy pkeys b.2) (sent w) →
  Forall (λ b, tidy pkeys b.2) (sent (_add_request_and_process r w).2).
Proof.
  intros Hp Hne Htidy Hsent.
  destruct (add_request_tidy w pkeys r Hp Hne Htidy)
    as [(e & _ & ->) | (vs & _ & Hadd & Htidy')]; [done |].
  simpl in Hadd, Htidy'. rewrite Hadd.
  set (w1 := with_buffer _ w) in *.
  destruct (flush_if_needed_cases w1) as [[_ ->] | [_ ->]]; [| done].
  by apply flush_tidy_batch.
Qed.

Lemma aexit_tidy_batches pkeys exc fuel w o w' :
  returns_sent_items (_client (self w)) →
  tidy pkeys (buffer w) →
  __aexit__ exc fuel w = Some (o, w') →
  Forall (λ b, tidy pkeys b.2) (sent w) →
  Forall (λ b, tidy pkeys b.2) (sent w').
Proof.
  revert w. induction fuel as [|fuel IH]; intros w Hc Htidy.
  - simpl. destruct (buffer w); [| done]. by intros [= _ <-].
  - destruct (decide (buffer w = [])) as [Hb|Hb].
    { rewrite aexit_nil by done. by intros [= _ <-]. }
    rewrite aexit_step by done.
    pose proof (flush_tidy_batch pkeys w Htidy) as Hbatch.
    pose proof (flush_submseteq w Hc) as Hsub.
    pose proof (flush_config w) as (_ & Hcl & _).
    destruct (_flush w) as [[[]|e] w1]; simpl in *.
    + pose proof (after_flush_sleep w1) as [Hself Hsent]. simpl in Hself, Hsent.
      set (w2 := if _ && _ then _ else w1) in *.
      intros Hrun Hall. apply (IH w2); [| | done |].
      * by rewrite Hself, Hcl.
      * unfold buffer. rewrite Hself. by eapply tidy_submseteq.
      * rewrite Hsent. by apply Hbatch.
    + intros [= _ <-] Hall. by apply Hbatch.
Qed.

(** X7.  With a non-empty [overwrite_by_pkeys] and a back end that
    returns only what it was sent, no [batch_write_item] the writer makes
    carries two requests with the same tuple (DynamoDB rejects such a
    batch), and every request in it has a tuple. *)
Theorem batches_have_distinct_tuples
    (table : string) (c : client) (fa : Z) (pkeys : list string) (sl : Z) (w : world) :
  pkeys ≠ [] → returns_sent_items c →
  reachable (__init__ table c fa (Some pkeys) sl) w →
  Forall (λ b, Forall (extracts pkeys) b.2 ∧ no_equal_tuples pkeys b.2) (sent w).
Proof.
  intros Hne Hc Hreach.
  assert (Forall (λ b, tidy pkeys b.2) (sent w)) as Hall.
  { induction Hreach as [| w Item o w' Hreach IH Hrun | w Key o w' Hreach IH Hrun
                         | w exc fuel o w' Hreach IH Hrun].
    - constructor.
    - destruct (reachable_inv _ _ _ _ _ _ Hne Hc Hreach) as (Hp & _ & Htidy).
      pose proof (add_request_tidy_batches pkeys (PutRequest Item) w Hp Hne Htidy IH) as H.
      unfold put_item in Hrun. by rewrite Hrun in H.
    - destruct (reachable_inv _ _ _ _ _ _ Hne Hc Hreach) as (Hp & _ & Htidy).
      pose proof (add_request_tidy_batches pkeys (DeleteRequest Key) w Hp Hne Htidy IH) as H.
      unfold delete_item in Hrun. by rewrite Hrun in H.
    - destruct (reachable_inv _ _ _ _ _ _ Hne Hc Hreach) as (_ & Hcl & Htidy).
      eapply aexit_tidy_batches; [| done | done | done]. by rewrite Hcl. }
  eapply Forall_impl; [done |]. intros b [Hex Hnd].
  split; [done |]. by apply tidy_no_equal_tuples.
Qed.

Lemma batches_have_distinct_tuples_witness :
  let w := (do_calls [put_call (kv 1 "a"); put_call (kv 1 "b"); put_call (kv 2 "c")]
              (__init__ "t" echo_client 2 (Some ["K"]) 0)).2 in
  sent w = [("t", [PutRequest (kv 1 "b"); PutRequest (kv 2 "c")])] ∧
  Forall (λ b, Forall (extracts ["K"]) b.2 ∧ no_equal_tuples ["K"] b.2) (sent w).
Proof.
  intros w. split; [reflexivity |].
  apply (batches_have_distinct_tuples "t" echo_client 2 ["K"] 0 w);
    [discriminate | exact echo_client_returns_sent_items |].
  set (w0 := __init__ "t" echo_client 2 (Some ["K"]) 0).
  set (w1 := (put_item (kv 1 "a") w0).2).
  set (w2 := (put_item (kv 1 "b") w1).2).
  apply (reach_put w0 w2 (kv 2 "c") (Return ()) w); [| reflexivity].
  apply (reach_put w0 w1 (kv 1 "b") (Return ()) w2); [| reflexivity].
  apply (reach_put w0 w0 (kv 1 "a") (Return ()) w1); [| reflexivity].
  apply reach_init.
Defined.

(** ** Delivery in order *)

Lemma concat_length_uniform {A} (k : nat) (ls : list (list A)) :
  Forall (λ l, length l = k) ls → length (concat ls) = (k * length ls)%nat.
Proof.
  induction 1 as [|l ls Hl _ IH]; simpl; [lia |].
  rewrite length_app, IH, Hl. lia.
Qed.

Lemma do_calls_accepts cs w :
  truthy (_overwrite_by_pkeys (self w)) = false →
  accepts_all (_client (self w)) →
  0 < _flush_amount (self w) →
  Z.of_nat (length (buffer w)) < _flush_amount (self w) →
  ∃ w' batches,
    do_calls cs w = (Return (), w') ∧ same_config w w' ∧
    Z.of_nat (length (buffer w')) < _flush_amount (self w) ∧
    sent w' = sent w ++ batches ∧
    Forall (λ b, b.1 = _table_name (self w) ∧
                 length b.2 = Z.to_nat (_flush_amount (self w))) batches ∧
    concat batches.*2 ++ buffer w' = buffer w ++ (request_of <$> cs).
Proof.
  revert w. induction cs as [|c cs IH]; intros w Ht Hc Hpos Hlen.
  - exists w, []. simpl. rewrite !app_nil_r.
    split; [done |]. split; [apply same_config_refl |]. by repeat split.
  - cbn [do_calls]. rewrite do_call_request, add_request_falsy by done.
    set (r := request_of c). set (w1 := with_buffer (buffer w ++ [r]) w).
    assert (length (buffer w1) = S (length (buffer w))) as Hlen1.
    { unfold w1. rewrite buffer_with_buffer, length_app. simpl. lia. }
    destruct (flush_if_needed_cases w1) as [[Hge ->] | [Hlt ->]].
    + rewrite flush_accepts by done.
      assert (Z.to_nat (_flush_amount (self w)) = length (buffer w1)) as Hfull.
      { simpl in Hge. lia. }
      assert (slice_to (_flush_amount (self w1)) (buffer w1) = buffer w1) as Hbatch.
      { unfold slice_to. rewrite slice_index_pos by done.
        apply take_ge. simpl. lia. }
      assert (slice_from (_flush_amount (self w1)) (buffer w1) = []) as Hrest.
      { unfold slice_from. rewrite slice_index_pos by done.
        apply drop_ge. simpl. lia. }
      rewrite Hbatch, Hrest.
      set (w2 := mkWorld _ _ _).
      destruct (IH w2) as (w' & batches & Hrun & Hcfg & Hlen' & Hsent & Hall & Hcat);
        [done | done | done | simpl; lia |].
      exists w', ((_table_name (self w), buffer w1) :: batches).
      split; [done |]. split; [done |]. split; [done |]. split; [| split].
      * rewrite Hsent. simpl. by rewrite <- app_assoc.
      * constructor; [| done]. simpl. split; [done | lia].
      * rewrite fmap_cons. change (concat (?x :: ?l)) with (x ++ concat l).
        rewrite <- app_assoc, Hcat.
        change (buffer w2) with (@nil request). rewrite app_nil_l. unfold w1.
        cbn [snd]. rewrite buffer_with_buffer, fmap_cons, <- app_assoc. done.
    + destruct (IH w1) as (w' & batches & Hrun & Hcfg & Hlen' & Hsent & Hall & Hcat);
        [done | done | done | simpl in *; lia |].
      exists w', batches.
      split; [done |]. split; [done |]. split; [done |]. split; [done |].
      split; [done |].
      rewrite Hcat. unfold w1. rewrite buffer_with_buffer, fmap_cons, <- app_assoc. done.
Qed.

(** X8.  No [overwrite_by_pkeys], a positive [flush_amount] [k] and a
    back end that accepts every batch: [n] calls of [put_item] and
    [delete_item] on a fresh writer all return; the back end was called
    [n / k] times, each time with exactly [k] requests; the batches, in
    the order they were sent, followed by the buffer are the requests in
    the order of the calls; [n mod k] requests wait in the buffer. *)
Theorem calls_fill_batches_in_order
    (table : string) (c : client) (fa : Z) (p : option (list string)) (sl : Z)
    (cs : list call) :
  truthy p = false → accepts_all c → 0 < fa →
  let res := do_calls cs (__init__ table c fa p sl) in
  res.1 = Return () ∧
  Forall (λ b, b.1 = table ∧ length b.2 = Z.to_nat fa) (sent res.2) ∧
  concat (sent res.2).*2 ++ buffer res.2 = request_of <$> cs ∧
  length (sent res.2) = (length cs / Z.to_nat fa)%nat ∧
  length (buffer res.2) = (length cs `mod` Z.to_nat fa)%nat.
Proof.
  intros Ht Hc Hpos res.
  destruct (do_calls_accepts cs (__init__ table c fa p sl))
    as (w' & batches & Hrun & _ & Hlen & Hsent & Hall & Hcat);
    [done | done | done | simpl; lia |].
  unfold res. rewrite Hrun. simpl in *. subst batches.
  split; [done |]. split; [done |]. split; [done |].
  assert (length cs = Z.to_nat fa * length (sent w') + length (buffer w'))%nat as Hn.
  { apply (f_equal length) in Hcat.
    rewrite length_app, length_fmap in Hcat. rewrite <- Hcat.
    rewrite (concat_length_uniform (Z.to_nat fa)), length_fmap; [done |].
    apply Forall_fmap. eapply Forall_impl; [done |]. by intros b [_ ?]. }
  assert (length (buffer w') < Z.to_nat fa)%nat as Hlt by lia.
  split.
  - by apply (Nat.div_unique _ _ _ (length (buffer w'))).
  - by apply (Nat.mod_unique _ _ (length (sent w'))).
Qed.

Lemma calls_fill_batches_in_order_witness :
  let res := do_calls [put_call (kv 1 "a"); delete_call (kv 1 "b"); put_call (kv 1 "c");
                       put_call (kv 1 "d"); put_call (kv 1 "e")]
               (__init__ "t" quiet_client 2 None 0) in
  length (sent res.2) = 2%nat ∧ length (buffer res.2) = 1%nat.
Proof.
  intros res.
  destruct (calls_fill_batches_in_order "t" quiet_client 2 None 0
              [put_call (kv 1 "a"); delete_call (kv 1 "b"); put_call (kv 1 "c");
               put_call (kv 1 "d"); put_call (kv 1 "e")]
              eq_refl quiet_client_accepts_all eq_refl) as (_ & _ & _ & Hs & Hb).
  split; [exact Hs | exact Hb].
Defined.

(** X9.  The same writer, closed after the calls: [__aexit__] returns
    (it needs no more turns than there were calls), the buffer is empty,
    and all the batches sent, one after the other, are the requests of the
    calls, each once, in the order of the calls. *)
Theorem calls_then_exit_deliver_all
    (table : string) (c : client) (fa : Z) (p : option (list string)) (sl : Z)
    (cs : list call) (exc : option exn) (fuel : nat) :
  truthy p = false → accepts_all c → 0 < fa → (length cs ≤ fuel)%nat →
  ∃ w' w'',
    do_calls cs (__init__ table c fa p sl) = (Return (), w') ∧
    __aexit__ exc fuel w' = Some (Return (), w'') ∧
    buffer w'' = [] ∧
    concat (sent w'').*2 = request_of <$> cs.
Proof.
  intros Ht Hc Hpos Hfuel.
  destruct (do_calls_accepts cs (__init__ table c fa p sl))
    as (w' & batches & Hrun & Hcfg & Hlen & Hsent & Hall & Hcat);
    [done | done | done | simpl; lia |].
  destruct Hcfg as (_ & Hcl & Hfa & _). simpl in *. subst batches.
  destruct (aexit_accepts_all exc fuel w') as (w'' & batches' & Hexit & Hempty & Hsent' & Hcat').
  - by rewrite Hcl.
  - by rewrite Hfa.
  - apply (f_equal length) in Hcat. rewrite length_app, length_fmap in Hcat. lia.
  - exists w', w''. split; [done |]. split; [done |]. split; [done |].
    by rewrite Hsent', fmap_app, concat_app, Hcat'.
Qed.

Lemma calls_then_exit_deliver_all_witness :
  ∃ w' w'',
    do_calls [put_call (kv 1 "a"); delete_call (kv 1 "b"); put_call (kv 1 "c")]
      (__init__ "t" quiet_client 2 None 0) = (Return (), w') ∧
    __aexit__ None 3 w' = Some (Return (), w'') ∧
    buffer w'' = [] ∧
    concat (sent w'').*2
    = [PutRequest (kv 1 "a"); DeleteRequest (kv 1 "b"); PutRequest (kv 1 "c")].
Proof.
  exact (calls_then_exit_deliver_all "t" quiet_client 2 None 0
           [put_call (kv 1 "a"); delete_call (kv 1 "b"); put_call (kv 1 "c")]
           None 3 eq_refl quiet_client_accepts_all eq_refl (le_n 3)).
Defined.

(** ** The drain loop *)

Lemma flush_hands_all_back w :
  hands_all_back (_client (self w)) →
  (_flush w).1 = Return () ∧
  buffer (_flush w).2
  = slice_from (_flush_amount (self w)) (buffer w)
    ++ slice_to (_flush_amount (self w)) (buffer w).
Proof.
  intros Hc. pose proof (flush_cases w) as (_ & _ & H). simpl in H.
  destruct (Hc (length (sent w)) (_table_name (self w))
              (slice_to (_flush_amount (self w)) (buffer w)))
    as (resp & u & Hcall & Hu & Hall).
  by rewrite Hcall, Hu, Hall in H.
Qed.

(** X11.  Over a back end that hands every batch back, [__aexit__] of a
    writer with a request in its buffer does not end, whatever
    [flush_amount] and [on_exit_loop_sleep] are: no number of turns of
    the loop brings it to a return or to an exception. *)
Theorem exit_never_ends_when_all_comes_back
    (exc : option exn) (fuel : nat) (w : world) :
  hands_all_back (_client (self w)) → buffer w ≠ [] →
  __aexit__ exc fuel w = None.
Proof.
  revert w. induction fuel as [|fuel IH]; intros w Hc Hb.
  - simpl. by destruct (buffer w).
  - rewrite aexit_step by done.
    destruct (flush_hands_all_back w Hc) as [Ho Hbuf].
    pose proof (flush_config w) as (_ & Hcl & _).
    destruct (_flush w) as [o w1]. simpl in *. subst o.
    pose proof (after_flush_sleep w1) as [Hself _]. simpl in Hself.
    set (w2 := if _ && _ then _ else w1) in *.
    apply IH.
    + by rewrite Hself, Hcl.
    + unfold buffer in *. rewrite Hself, Hbuf. intros Hnil.
      apply (f_equal length) in Hnil. rewrite length_app in Hnil.
      pose proof (slice_to_from (_flush_amount (self w)) (_items_buffer (self w))) as Hsplit.
      apply (f_equal length) in Hsplit. rewrite length_app in Hsplit.
      destruct (_items_buffer (self w)); [done | simpl in *; lia].
Qed.

Lemma echo_client_hands_all_back : hands_all_back echo_client.
Proof.
  intros n table batch.
  exists {["UnprocessedItems" := PyDict {[table := batch]}]}, (PyDict {[table := batch]}).
  split; [done |]. split; [apply lookup_singleton_eq |].
  simpl. by rewrite lookup_singleton_eq.
Qed.

Lemma exit_never_ends_when_all_comes_back_witness :
  __aexit__ None 50 (with_buffer [PutRequest (kv 1 "a")] (__init__ "t" echo_client 25 None 1))
  = None.
Proof.
  apply exit_never_ends_when_all_comes_back;
    [exact echo_client_hands_all_back | discriminate].
Defined.

Lemma aexit_sleeps exc fuel w o w' :
  __aexit__ exc fuel w = Some (o, w') →
  ∃ batches,
    sent w' = sent w ++ batches ∧ (buffer w ≠ [] → batches ≠ []) ∧
    slept w' = slept w ++
      replicate (if decide (_on_exit_loop_sleep (self w) = 0) then O
                 else (length batches - 1)%nat)
        (_on_exit_loop_sleep (self w)).
Proof.
  revert w. induction fuel as [|fuel IH]; intros w.
  - simpl. destruct (buffer w); [| done]. intros [= _ <-].
    exists []. rewrite app_nil_r. split; [done |]. split; [done |].
    case_decide; simpl; by rewrite app_nil_r.
  - destruct (decide (buffer w = [])) as [Hb|Hb].
    { rewrite aexit_nil by done. intros [= _ <-].
      exists []. rewrite app_nil_r. split; [done |]. split; [done |].
      case_decide; simpl; by rewrite app_nil_r. }
    rewrite aexit_step by done.
    pose proof (flush_cases w) as (Hs & Hsl & _). simpl in Hs, Hsl.
    pose proof (flush_config w) as (_ & _ & _ & _ & Hsleep).
    destruct (_flush w) as [[[]|e] w1]; simpl in *.
    + destruct (decide (buffer w1 = [])) as [Hb1|Hb1].
      * rewrite (bool_decide_eq_false_2 (buffer w1 ≠ [])) by (by intros ?).
        simpl. rewrite aexit_nil by done. intros [= _ <-].
        eexists. split; [done |]. split; [done |].
        rewrite Hsl. simpl. case_decide; simpl; by rewrite app_nil_r.
      * rewrite (bool_decide_eq_true_2 (buffer w1 ≠ [])) by done. simpl.
        destruct (decide (_on_exit_loop_sleep (self w) = 0)) as [Hz|Hnz].
        -- rewrite bool_decide_eq_false_2 by (rewrite Hsleep; by intros ?).
           intros Hrun. apply IH in Hrun as (batches & Hsent & _ & Hslept).
           exists (( _table_name (self w),
                     slice_to (_flush_amount (self w)) (buffer w)) :: batches).
           split; [by rewrite Hsent, Hs, <- app_assoc |]. split; [done |].
           rewrite Hslept, Hsleep, Hsl. by rewrite !decide_True by done.
        -- rewrite bool_decide_eq_true_2 by (by rewrite Hsleep).
           intros Hrun. apply IH in Hrun as (batches & Hsent & Hne & Hslept).
           simpl in *.
           exists (( _table_name (self w),
                     slice_to (_flush_amount (self w)) (buffer w)) :: batches).
           split; [by rewrite Hsent, Hs, <- app_assoc |]. split; [done |].
           rewrite Hslept, Hsleep, Hsl. rewrite !decide_False by done.
           destruct batches as [|b batches]; [by destruct Hne |]. simpl.
           rewrite Nat.sub_0_r, <- app_assoc. done.
    + intros [= _ <-]. eexists. split; [done |]. split; [done |].
      rewrite Hsl. simpl. case_decide; simpl; by rewrite app_nil_r.
Qed.

(** X12.  An [__aexit__] that ends, by a return or by an exception, has
    slept only for [on_exit_loop_sleep], never when that is zero, and
    otherwise once between two flushes and not after the last: one
    sleep less than the batches it sent. *)
Theorem exit_sleeps_between_flushes
    (exc : option exn) (fuel : nat) (w w' : world) (o : outcome unit) :
  __aexit__ exc fuel w = Some (o, w') →
  slept w' = slept w ++
    replicate (if decide (_on_exit_loop_sleep (self w) = 0) then O
               else (length (sent w') - length (sent w) - 1)%nat)
      (_on_exit_loop_sleep (self w)).
Proof.
  intros Hrun. apply aexit_sleeps in Hrun as (batches & Hsent & _ & ->).
  rewrite Hsent, length_app.
  by replace (length (sent w) + length batches - length (sent w))%nat
    with (length batches) by lia.
Qed.

Lemma exit_sleeps_between_flushes_witness :
  let w := with_buffer [PutRequest (kv 1 "a"); PutRequest (kv 2 "b"); PutRequest (kv 3 "c")]
             (__init__ "t" quiet_client 1 None 5) in
  ∃ w', __aexit__ None 3 w = Some (Return (), w') ∧ slept w' = [5; 5].
Proof.
  intros w. eexists. split; [reflexivity |].
  exact (exit_sleeps_between_flushes None 3 w _ (Return ()) eq_refl).
Defined.

(** X13.  After an [__aexit__] that returned, another [__aexit__]
    returns at once: it calls the back end not once, does not sleep and
    leaves the writer as it is. *)
Theorem exit_twice_is_exit_once
    (exc exc' : option exn) (fuel fuel' : nat) (w w' : world) :
  __aexit__ exc fuel w = Some (Return (), w') →
  __aexit__ exc' fuel' w' = Some (Return (), w').
Proof. intros Hrun. apply aexit_nil. by eapply aexit_returns_empty. Qed.

Lemma exit_twice_is_exit_once_witness :
  let w := with_buffer [PutRequest (kv 1 "a"); PutRequest (kv 2 "b")]
             (__init__ "t" quiet_client 25 None 0) in
  ∃ w', __aexit__ None 1 w = Some (Return (), w') ∧
        __aexit__ None 0 w' = Some (Return (), w').
Proof.
  intros w. eexists. split; [reflexivity |].
  exact (exit_twice_is_exit_once None None 1 0 w _ eq_refl).
Defined.

(** ** [flush_amount = 0] *)

Lemma flush_zero w :
  _flush_amount (self w) = 0 →
  sent (_flush w).2 = sent w ++ [(_table_name (self w), [])] ∧
  ∃ more, buffer (_flush w).2 = buffer w ++ more.
Proof.
  intros Hz. pose proof (flush_cases w) as (Hs & _ & H). simpl in Hs, H.
  rewrite Hz in Hs, H. split; [done |].
  change (slice_from 0 (buffer w)) with (buffer w) in H.
  destruct (_client _ _ _ _) as [resp|e].
  - destruct (resp !! "UnprocessedItems") as [u|]; destruct H as [_ ->];
      [by eexists | exists []; by rewrite app_nil_r].
  - destruct H as [_ ->]. exists []. by rewrite app_nil_r.
Qed.

Lemma aexit_zero exc fuel w o w' :
  _flush_amount (self w) = 0 →
  __aexit__ exc fuel w = Some (o, w') →
  ∃ more, buffer w' = buffer w ++ more.
Proof.
  revert w. induction fuel as [|fuel IH]; intros w Hz.
  - simpl. destruct (buffer w) eqn:Hb; [| done]. intros [= _ <-].
    exists []. by rewrite Hb.
  - destruct (decide (buffer w = [])) as [Hb|Hb].
    { rewrite aexit_nil by done. intros [= _ <-]. exists []. by rewrite app_nil_r. }
    rewrite aexit_step by done.
    destruct (flush_zero w Hz) as (_ & more & Hmore).
    pose proof (flush_config w) as (_ & _ & Hfa & _).
    destruct (_flush w) as [[[]|e] w1]; simpl in *.
    + pose proof (after_flush_sleep w1) as [Hself _]. simpl in Hself.
      set (w2 := if _ && _ then _ else w1) in *.
      intros Hrun. apply IH in Hrun as (more' & ->); [| by rewrite Hself, Hfa].
      unfold buffer in *. rewrite Hself, Hmore, <- app_assoc. by eexists.
    + intros [= _ <-]. by eexists.
Qed.

(** X14.  The edge [flush_amount = 0].  Every call that gets past the
    scan (there is no [overwrite_by_pkeys], or the scan returns) calls
    the back end once, with an empty batch, and its request stays in the
    buffer, after what the scan kept; and an [__aexit__] of a writer with
    a request in its buffer never returns: it raises, or runs on. *)
Theorem zero_flush_amount_sends_nothing (w : world) :
  _flush_amount (self w) = 0 →
  (∀ r, truthy (_overwrite_by_pkeys (self w)) = false ∨
        (_remove_dup_pkeys_request_if_any r w).1 = Return () →
        sent (_add_request_and_process r w).2 = sent w ++ [(_table_name (self w), [])] ∧
        ∃ kept more, sublist kept (buffer w) ∧
                     buffer (_add_request_and_process r w).2 = kept ++ [r] ++ more) ∧
  (buffer w ≠ [] →
   ∀ exc fuel w', __aexit__ exc fuel w ≠ Some (Return (), w')).
Proof.
  intros Hz. split.
  - intros r Hpast.
    destruct (add_request_cases r w) as [(e & w1 & _ & Ht & Hd) | (kept & -> & Hk)].
    { rewrite Ht, Hd in Hpast. by destruct Hpast. }
    assert (sublist kept (buffer w)) as Hsub.
    { destruct (truthy _).
      - destruct (remove_dup_world r w) as (k & Hw & Hs).
        rewrite Hk in Hw. simpl in Hw.
        apply (f_equal buffer) in Hw. by rewrite !buffer_with_buffer in Hw; subst k.
      - by subst kept. }
    set (w1 := with_buffer (kept ++ [r]) w).
    destruct (flush_if_needed_cases w1) as [[_ ->] | [Hlt _]]; [| simpl in Hlt; lia].
    destruct (flush_zero w1 Hz) as (Hs & more & Hmore).
    split; [done |]. exists kept, more. split; [done |].
    rewrite Hmore. unfold w1. by rewrite buffer_with_buffer, <- app_assoc.
  - intros Hb exc fuel w' Hrun.
    pose proof (aexit_returns_empty _ _ _ _ Hrun) as Hempty.
    apply aexit_zero in Hrun as (more & Hmore); [| done].
    rewrite Hempty in Hmore. by destruct (buffer w).
Qed.

Lemma zero_flush_amount_sends_nothing_witness :
  let w := with_buffer [PutRequest (kv 1 "a")] (__init__ "t" quiet_client 0 None 0) in
  (sent (put_item (kv 2 "b") w).2 = sent w ++ [("t", [])] ∧
   ∃ kept more, sublist kept (buffer w) ∧
                buffer (put_item (kv 2 "b") w).2 = kept ++ [PutRequest (kv 2 "b")] ++ more) ∧
  (∀ exc fuel w', __aexit__ exc fuel w ≠ Some (Return (), w')).
Proof.
  intros w.
  destruct (zero_flush_amount_sends_nothing w eq_refl) as [Hcall Hexit].
  split; [exact (Hcall (PutRequest (kv 2 "b")) (or_introl eq_refl))
         | apply Hexit; discriminate].
Defined.

(** ** Overwriting *)

(** X15.  The newest request overwrites without a trace: in a buffer
    with a tuple for every entry and no tuple twice, and below
    [flush_amount], a request followed by a second one with the same
    tuple (a put and a delete of the same key, say) leaves the writer as
    the second request alone does. *)
Theorem overwritten_request_leaves_no_trace
    (w : world) (pkeys : list string) (r1 r2 : request) (vs : list value) :
  _overwrite_by_pkeys (self w) = Some pkeys → pkeys ≠ [] →
  tidy pkeys (buffer w) →
  _extract_pkey_values pkeys r1 = Return vs →
  _extract_pkey_values pkeys r2 = Return vs →
  Z.of_nat (length (filter (λ y, ¬ matches pkeys vs y) (buffer w))) + 1
    < _flush_amount (self w) →
  (_add_request_and_process r1 w).1 = Return () ∧
  _add_request_and_process r2 (_add_request_and_process r1 w).2
  = _add_request_and_process r2 w.
Proof.
  intros Hp Hne Htidy Hr1 Hr2 Hlen.
  set (kept := filter (λ y, ¬ matches pkeys vs y) (buffer w)) in *.
  assert (∀ r, Z.of_nat (length (kept ++ [r])) < _flush_amount (self w)) as Hlen'.
  { intros r. rewrite length_app. simpl. lia. }
  rewrite (add_request_below w pkeys r1 vs) by (done || apply Hlen').
  rewrite (add_request_below w pkeys r2 vs) by (done || apply Hlen').
  fold kept. split; [done |]. cbn [snd].
  set (w1 := with_buffer (kept ++ [r1]) w).
  assert (filter (λ y, ¬ matches pkeys vs y) (buffer w1) = kept) as Hkept.
  { unfold w1. rewrite buffer_with_buffer, filter_app.
    rewrite filter_cons_False, filter_nil, app_nil_r by (by intros []).
    apply filter_all. apply Forall_forall. intros y Hy.
    by apply list_elem_of_filter in Hy as [? _]. }
  rewrite (add_request_below w1 pkeys r2 vs); [| done | done | | done |].
  - by rewrite Hkept.
  - by apply tidy_snoc.
  - rewrite Hkept. apply Hlen'.
Qed.

Lemma overwritten_request_leaves_no_trace_witness :
  let w := with_buffer [PutRequest (kv 2 "b")] (__init__ "t" quiet_client 25 (Some ["K"]) 0) in
  buffer (delete_item {["K" := VNum 1]} (put_item (kv 1 "a") w).2).2
  = [PutRequest (kv 2 "b"); DeleteRequest {["K" := VNum 1]}].
Proof.
  intros w. unfold delete_item, put_item.
  destruct (overwritten_request_leaves_no_trace w ["K"]
              (PutRequest (kv 1 "a")) (DeleteRequest {["K" := VNum 1]}) [VNum 1])
    as [_ ->].
  - reflexivity.
  - discriminate.
  - split; [repeat constructor; eexists; reflexivity |].
    refine (bool_decide_unpack _ _). vm_compute. exact I.
  - reflexivity.
  - reflexivity.
  - vm_compute. reflexivity.
  - reflexivity.
Defined.
